(** * A shallow embedding of [tools.py] (transit search workshop tools)

    The module embeds [Heatmap], [MaskOutliers], [GetChunkData] and
    [Search] of [src/tools.py].

    Numbers.  Every numeric value of the program is a numpy [float64].
    They are idealised here as exact rationals extended with the three
    IEEE special values the program can produce and tests for
    ([inf], [-inf], [nan]): arithmetic on finite values is exact (no
    rounding, no overflow, no signed zero), division by zero and
    operations on special values follow IEEE 754 as numpy implements
    them (a warning, not an exception).

    Python.  [round] is Python 3's (ties to even, result an [int]),
    [int] truncates towards zero, negative indices count from the end
    of a sequence.  Exceptions are values of [exn]; a function that can
    raise returns a [result].

    numpy.  Arrays are lists; an index array may hold negative
    indices, which count from the end; [np.delete] and indexing raise
    [IndexError] out of range; arithmetic between arrays broadcasts an
    array of length one (a matrix with one row, a row with one column)
    and raises [ValueError] on any other mismatch of shapes.

    Disk.  [Search] caches its result in a file named after the target
    and the joint-fit flag; the disk is a finite map from file names to
    files, a file being an archive [np.savez] wrote or something
    [np.load] cannot read.  A write can fail in two ways: on a
    read-only disk the file cannot be opened and nothing changes; on a
    disk with no room left the file is created (or truncated) before
    the write fails, and what is left cannot be read.

    Externals.  [everest], [scipy] and the transit shape are libraries
    outside this repository: they are section variables.  The module
    [Instance] gives one concrete choice of them, on which the
    statements are evaluated. *)

From Stdlib Require Import ZArith QArith Qround Qabs Qreduction Lia Lqa Bool Sorted Ascii.
From stdpp Require Import base list gmap strings pretty.

Set Default Proof Using "Type".
Open Scope Z_scope.

(** ** Exceptions and results *)

Inductive exn :=
  | IndexError        (* sequence index out of range *)
  | ConversionError   (* int() or round() of inf (OverflowError) or nan (ValueError) *)
  | ArangeError       (* np.arange cannot compute a length *)
  | ShapeError        (* operands could not be broadcast / aligned (ValueError) *)
  | LinAlgError       (* cho_factor: matrix not positive definite *)
  | NonFiniteError    (* check_finite: array must not contain infs or NaNs (ValueError) *)
  | IOError.          (* np.load / np.savez failure *)

Inductive result (A : Type) :=
  | Ok (a : A)
  | Err (e : exn).
Arguments Ok {A} a.
Arguments Err {A} e.

#[global] Instance result_ret : MRet result := fun A a => Ok a.
#[global] Instance result_bind : MBind result := fun A B f r =>
  match r with Ok a => f a | Err e => Err e end.
#[global] Instance result_fmap : FMap result := fun A B f r =>
  match r with Ok a => Ok (f a) | Err e => Err e end.

(** [for x in l: acc = body(acc, x)], aborting at the first exception. *)
Fixpoint foldM {A B : Type} (body : B → A → result B) (acc : B) (l : list A)
  : result B :=
  match l with
  | [] => Ok acc
  | x :: l' => acc' ← body acc x; foldM body acc' l'
  end.

(** [[f(x) for x in l]], aborting at the first exception. *)
Fixpoint mapM {A B : Type} (f : A → result B) (l : list A) : result (list B) :=
  match l with
  | [] => Ok []
  | x :: l' => y ← f x; ys ← mapM f l'; Ok (y :: ys)
  end.

(** ** Idealised float64 *)

Inductive num :=
  | Fin (q : Q)
  | PInf
  | NInf
  | NaN.

Definition Qltb (a b : Q) : bool := negb (Qle_bool b a).
Definition Qis0 (a : Q) : bool := Qeq_bool a 0.

Definition inf_of_sign (pos : bool) : num := if pos then PInf else NInf.

(** sign of a finite value: [Some true] positive, [Some false] negative,
    [None] zero *)
Definition Qsign (a : Q) : option bool :=
  if Qis0 a then None else Some (Qltb 0 a).

Definition nneg (x : num) : num :=
  match x with
  | Fin a => Fin (Qred (- a))
  | PInf => NInf
  | NInf => PInf
  | NaN => NaN
  end.

Definition nadd (x y : num) : num :=
  match x, y with
  | NaN, _ | _, NaN => NaN
  | Fin a, Fin b => Fin (Qred (a + b))
  | PInf, NInf | NInf, PInf => NaN
  | PInf, _ | _, PInf => PInf
  | NInf, _ | _, NInf => NInf
  end.

Definition nsub (x y : num) : num :=
  match x, y with
  | NaN, _ | _, NaN => NaN
  | Fin a, Fin b => Fin (Qred (a - b))
  | PInf, PInf | NInf, NInf => NaN
  | PInf, _ | _, NInf => PInf
  | NInf, _ | _, PInf => NInf
  end.

Definition nmul_inf (pos : bool) (y : num) : num :=
  match y with
  | NaN => NaN
  | PInf => inf_of_sign pos
  | NInf => inf_of_sign (negb pos)
  | Fin b =>
      match Qsign b with
      | None => NaN
      | Some s => inf_of_sign (if s then pos else negb pos)
      end
  end.

Definition nmul (x y : num) : num :=
  match x, y with
  | NaN, _ => NaN
  | Fin a, Fin b => Fin (Qred (a * b))
  | Fin _, _ => match y with
                | PInf => nmul_inf true x
                | NInf => nmul_inf false x
                | _ => NaN
                end
  | PInf, _ => nmul_inf true y
  | NInf, _ => nmul_inf false y
  end.

Definition ndiv (x y : num) : num :=
  match x, y with
  | NaN, _ | _, NaN => NaN
  | Fin a, Fin b =>
      if Qis0 b then
        match Qsign a with
        | None => NaN
        | Some s => inf_of_sign s
        end
      else Fin (Qred (a / b))
  | Fin _, _ => Fin 0
  | _, Fin b =>
      let xpos := match x with PInf => true | _ => false end in
      match Qsign b with
      | Some false => inf_of_sign (negb xpos)
      | _ => inf_of_sign xpos
      end
  | _, _ => NaN
  end.

Definition nabs (x : num) : num :=
  match x with
  | Fin a => Fin (Qred (Qabs a))
  | PInf | NInf => PInf
  | NaN => NaN
  end.

(** IEEE comparisons: anything involving [nan] is false. *)
Definition nltb (x y : num) : bool :=
  match x, y with
  | NaN, _ | _, NaN => false
  | Fin a, Fin b => Qltb a b
  | NInf, NInf | PInf, _ => false
  | NInf, _ => true
  | Fin _, PInf => true
  | Fin _, NInf => false
  end.

Definition ngtb (x y : num) : bool := nltb y x.

Definition nleb (x y : num) : bool :=
  match x, y with
  | NaN, _ | _, NaN => false
  | Fin a, Fin b => Qle_bool a b
  | NInf, _ | _, PInf => true
  | _, _ => false
  end.

Definition neqb (x y : num) : bool :=
  match x, y with
  | Fin a, Fin b => Qeq_bool a b
  | PInf, PInf | NInf, NInf => true
  | _, _ => false
  end.

(** [np.isfinite], [np.isnan] *)
Definition isfinite (x : num) : bool :=
  match x with Fin _ => true | _ => false end.
Definition isnan (x : num) : bool :=
  match x with NaN => true | _ => false end.

(** a finite value *)
Definition finite (x : num) : Prop := ∃ q, x = Fin q.

Definition of_Z (z : Z) : num := Fin (inject_Z z).

(** ** Python conversions and indexing *)

(** [int(x)]: truncation towards zero *)
Definition Qtrunc (q : Q) : Z :=
  if Qle_bool 0 q then Qfloor q else Qceiling q.

Definition py_int (x : num) : result Z :=
  match x with
  | Fin q => Ok (Qtrunc q)
  | _ => Err ConversionError
  end.

(** [round(x)]: nearest integer, ties to the even one *)
Definition Qround_half_even (q : Q) : Z :=
  let f := Qfloor q in
  match (q - inject_Z f ?= 1 # 2)%Q with
  | Lt => f
  | Gt => f + 1
  | Eq => if Z.even f then f else f + 1
  end.

Definition py_round (x : num) : result Z :=
  match x with
  | Fin q => Ok (Qround_half_even q)
  | _ => Err ConversionError
  end.

(** [l[i]] for an integer [i] *)
Definition py_index {A : Type} (l : list A) (i : Z) : result A :=
  let n := Z.of_nat (length l) in
  let k := if i <? 0 then i + n else i in
  if (k <? 0) || (n <=? k) then Err IndexError
  else match l !! Z.to_nat k with
       | Some a => Ok a
       | None => Err IndexError
       end.

(** ** numpy on one-dimensional arrays *)

Fixpoint np_diff (l : list num) : list num :=
  match l with
  | a :: (b :: _) as l' => nsub b a :: np_diff l'
  | _ => []
  end.

Fixpoint insert_sorted (x : num) (l : list num) : list num :=
  match l with
  | [] => [x]
  | y :: l' => if nleb x y then x :: l else y :: insert_sorted x l'
  end.

Definition np_sort (l : list num) : list num :=
  foldr insert_sorted [] l.

(** the median of a nan-free array: [nan] when empty, the middle value
    for an odd length, the mean of the two middle values otherwise *)
Definition median_sorted (s : list num) : num :=
  let n := length s in
  if (n =? 0)%nat then NaN
  else if Nat.odd n then default NaN (s !! (n / 2)%nat)
  else ndiv (nadd (default NaN (s !! (n / 2 - 1)%nat))
                  (default NaN (s !! (n / 2)%nat))) (Fin 2).

Definition np_nanmedian (l : list num) : num :=
  median_sorted (np_sort (filter (λ x, isnan x = false) l)).

Definition np_median (l : list num) : num :=
  if existsb isnan l then NaN else median_sorted (np_sort l).

(** [np.arange(start, stop, step)]: [ceil((stop - start) / step)]
    values [start + i * step] *)
Definition np_arange (start stop step : num) : result (list num) :=
  match ndiv (nsub stop start) step with
  | Fin q =>
      Ok (map (λ i : nat, nadd start (nmul (of_Z (Z.of_nat i)) step))
              (seq 0 (Z.to_nat (Qceiling q))))
  | _ => Err ArangeError
  end.

(** ** [Heatmap] *)

Module Fold.

(** the body of the loop over [times]: one fold time [t] *)
Definition accumulate (time delta_chisq : list num) (dt : num)
  (z : num) (t : num) : result num :=
  t_first ← py_index time 0;
  ind ← py_round (ndiv (nsub t t_first) dt);
  v ← py_index delta_chisq ind;
  Ok (nadd z v).

(** the fold times of one trial: [np.arange(t0, tf, period)].  In this
    exact arithmetic [tf - t0] is [k] periods and the range holds the
    [k] values before [tf].  In binary64 the rounded [tf] can lie a
    rounding error beyond [t0 + k * period], and [np.arange] then
    yields the value at [tf] as well. *)
Definition fold_times (time : list num) (period phase : num)
  : result (list num) :=
  t_first ← py_index time 0;
  let t0 := nadd t_first (nmul phase period) in
  t_last ← py_index time (-1);
  k ← py_int (ndiv (nsub t_last t0) period);
  let tf := nadd t0 (nmul period (of_Z k)) in
  np_arange t0 tf period.

(** the cell [z[i,j]] *)
Definition cell (time delta_chisq : list num) (dt : num)
  (period phase : num) : result num :=
  times ← fold_times time period phase;
  foldM (accumulate time delta_chisq dt) (Fin 0) times.

Definition Heatmap (time delta_chisq periods phases : list num)
  : result (list (list num)) :=
  let dt := np_nanmedian (np_diff time) in
  mapM (λ period, mapM (λ phase, cell time delta_chisq dt period phase) phases)
       periods.

End Fold.

(** ** More numpy: deletion, fancy indexing, broadcasting, matrices *)

(** a Python index into a sequence of length [n], as a position *)
Definition norm_index (n : nat) (i : Z) : result nat :=
  let k := if i <? 0 then i + Z.of_nat n else i in
  if (k <? 0) || (Z.of_nat n <=? k) then Err IndexError else Ok (Z.to_nat k).

(** the elements of [l] whose position (counted from [i]) is not in [ks] *)
Fixpoint remove_at {A : Type} (ks : list nat) (i : nat) (l : list A) : list A :=
  match l with
  | [] => []
  | x :: l' =>
      if bool_decide (i ∈ ks) then remove_at ks (S i) l'
      else x :: remove_at ks (S i) l'
  end.

(** [np.delete(l, idx)] *)
Definition np_delete {A : Type} (l : list A) (idx : list Z) : result (list A) :=
  ks ← mapM (norm_index (length l)) idx;
  Ok (remove_at ks 0 l).

(** [l[m]] for an index array [m] *)
Definition np_take {A : Type} (l : list A) (m : list Z) : result (list A) :=
  mapM (py_index l) m.

(** [np.where(cond)[0]] *)
Fixpoint where_from (cond : num → bool) (i : Z) (l : list num) : list Z :=
  match l with
  | [] => []
  | x :: l' =>
      if cond x then i :: where_from cond (i + 1) l'
      else where_from cond (i + 1) l'
  end.
Definition np_where (cond : num → bool) (l : list num) : list Z :=
  where_from cond 0 l.

(** [np.argmax(l == x)]: the first position holding [x], 0 when none *)
Fixpoint argmax_eq_from (x : num) (i : Z) (l : list num) : option Z :=
  match l with
  | [] => None
  | y :: l' => if neqb y x then Some i else argmax_eq_from x (i + 1) l'
  end.
Definition np_argmax_eq (l : list num) (x : num) : Z :=
  default 0 (argmax_eq_from x 0 l).

(** the sum of products of two rows of equal length *)
Definition row_dot (a b : list num) : num :=
  foldl nadd (Fin 0) (zip_with nmul a b).

(** [np.dot] of two one-dimensional arrays *)
Definition np_dot (a b : list num) : result num :=
  if (length a =? length b)%nat then Ok (row_dot a b) else Err ShapeError.

(** broadcasting a one-dimensional array to length [n] *)
Definition broadcast_row (n : nat) (a : list num) : result (list num) :=
  if (length a =? n)%nat then Ok a
  else match a with
       | [x] => Ok (replicate n x)
       | _ => Err ShapeError
       end.

(** [a - b] on one-dimensional arrays *)
Definition np_sub (a b : list num) : result (list num) :=
  let n := if (length a =? 1)%nat then length b else length a in
  a' ← broadcast_row n a;
  b' ← broadcast_row n b;
  Ok (zip_with nsub a' b').

(** [a * x] for a scalar [x] *)
Definition np_scale (a : list num) (x : num) : list num :=
  map (λ y, nmul y x) a.

(** two-dimensional arrays, as lists of rows *)
Abbreviation matrix := (list (list num)).

Definition mat_rows (A : matrix) : nat := length A.
Definition mat_cols (A : matrix) : nat :=
  match A with [] => 0%nat | r :: _ => length r end.

Definition np_zeros (r c : nat) : matrix := replicate r (replicate c (Fin 0)).

(** [np.dot(X, X.T)] *)
Definition mat_gram (X : matrix) : matrix :=
  map (λ ri, map (λ rj, row_dot ri rj) X) X.

(** [x * B] for a scalar [x] *)
Definition mat_scale (x : num) (B : matrix) : matrix :=
  map (map (λ y, nmul x y)) B.

(** broadcasting [B] to [r] rows of [c] columns *)
Definition broadcast_to (r c : nat) (B : matrix) : result matrix :=
  rows ← mapM (broadcast_row c) B;
  if (length rows =? r)%nat then Ok rows
  else match rows with
       | [row] => Ok (replicate r row)
       | _ => Err ShapeError
       end.

(** [A += B] *)
Definition mat_iadd (A B : matrix) : result matrix :=
  B' ← broadcast_to (mat_rows A) (mat_cols A) B;
  Ok (zip_with (zip_with nadd) A B').

(** ** The light curve object *)

Record Star := {
  ID : Z;
  time : list num;
  flux : list num;
  fraw : list num;
  fraw_err : list num;
  nanmask : list Z;
  badmask : list Z;
  outmask : list Z;
  transitmask : list Z;
  breakpoints : list Z;
  kernel : string;
  kernel_params : list num;
  pld_order : nat;
  lam : list (list num)
}.

(** the four arrays [Search] returns and caches *)
Record SearchResult := {
  sr_time : list num;
  sr_ml_depth : list num;
  sr_depth_variance : list num;
  sr_delta_chisq : list num
}.

(** ** The disk *)

Inductive file :=
  | Npz (r : SearchResult)   (* an archive [np.savez] wrote *)
  | Corrupt.                 (* a file [np.load] cannot read *)

Record disk := {
  files : gmap string file;
  read_only : bool;          (* no file can be opened for writing *)
  no_space : bool            (* a file can be created, its data cannot be written *)
}.

(** ['%02d' % n] *)
Definition fmt_02d (n : Z) : string :=
  let s := pretty n in
  if (String.length s <? 2)%nat then "0" +:+ s else s.

(** ['target%02d.search%d.npz' % (star.ID, int(joint_fit))] *)
Definition cache_name (id : Z) (joint_fit : bool) : string :=
  "target" +:+ fmt_02d id +:+ ".search" +:+ (if joint_fit then "1" else "0")
  +:+ ".npz".

Definition path_exists (d : disk) (name : string) : bool :=
  bool_decide (is_Some (files d !! name)).

(** [np.savez(name, ...)]: the archive is opened for writing, which
    creates or truncates the file, then the arrays are written *)
Definition np_savez (d : disk) (name : string) (r : SearchResult) : result disk :=
  if read_only d then Err IOError
  else if no_space d then Err IOError
  else Ok {| files := <[name := Npz r]> (files d); read_only := read_only d;
             no_space := no_space d |}.

(** the disk a call of [np.savez] that raised leaves behind: untouched
    when the file could not be opened, with an unreadable file under
    [name] when the write failed after the file was created *)
Definition np_savez_failed (d : disk) (name : string) : disk :=
  if read_only d then d
  else {| files := <[name := Corrupt]> (files d); read_only := read_only d;
          no_space := no_space d |}.

Definition np_load (d : disk) (name : string) : result SearchResult :=
  match files d !! name with
  | Some (Npz r) => Ok r
  | _ => Err IOError
  end.

(** ** [MaskOutliers], [GetChunkData] and [Search] *)

Section Pipeline.

(** the Cholesky factorisation [cho_factor] returns *)
Variable Factor : Type.

(** [star.get_masked_chunk(chunk, pad = False)] *)
Variable get_masked_chunk : Star → Z → list Z.
(** [star.X(n, m)] *)
Variable design : Star → nat → list Z → matrix.
(** [everest.gp.GetCovariance(kernel, kernel_params, time, errors)] *)
Variable GetCovariance : string → list num → list num → list num → matrix.
(** [everest.math.SavGol] *)
Variable SavGol : list num → list num.
(** [TransitShape()(t, t0)] *)
Variable transit_model : list num → num → list num.
(** [scipy.linalg.cho_factor], [scipy.linalg.cho_solve] *)
Variable cho_factor : matrix → result Factor.
Variable cho_solve : Factor → list num → result (list num).

(** *** [MaskOutliers] *)

(** the default tolerances, in standard deviations *)
Definition pos_tol_default : num := Fin (5 # 2).
Definition neg_tol_default : num := Fin 50.

Definition outlier_inds (star : Star) (t f : list num) (cond : num → bool)
  : result (list Z) :=
  mapM (λ i, ti ← py_index t i; Ok (np_argmax_eq (time star) ti))
       (np_where cond f).

Definition MaskOutliers (star : Star) (pos_tol neg_tol : num) : result Star :=
  let mask := nanmask star ++ badmask star in
  t ← np_delete (time star) mask;
  f ← np_delete (flux star) mask;
  let f := SavGol f in
  let med := np_nanmedian f in
  let MAD := nmul (Fin (7413 # 5000))
                  (np_nanmedian (map (λ x, nabs (nsub x med)) f)) in
  pos_inds ← outlier_inds star t f (λ x, ngtb x (nadd med (nmul pos_tol MAD)));
  let MAD := nmul (Fin (7413 # 5000))
                  (np_nanmedian (map (λ x, nabs (nsub x med)) f)) in
  neg_inds ← outlier_inds star t f (λ x, nltb x (nsub med (nmul neg_tol MAD)));
  Ok {| ID := ID star; time := time star; flux := flux star;
        fraw := fraw star; fraw_err := fraw_err star;
        nanmask := nanmask star; badmask := badmask star;
        outmask := neg_inds ++ pos_inds;
        transitmask := [];
        breakpoints := breakpoints star; kernel := kernel star;
        kernel_params := kernel_params star; pld_order := pld_order star;
        lam := lam star |}.

(** *** [GetChunkData] *)

(** the covariance matrix and the flux of a chunk *)
Definition joint_term (star : Star) (chunk : Z) (m : list Z)
  (A : matrix) (n : nat) : result matrix :=
  let XM := design star n m in
  lam_chunk ← py_index (lam star) chunk;
  l ← py_index lam_chunk (Z.of_nat n);
  mat_iadd A (mat_scale l (mat_gram XM)).

Definition chunk_covariance (star : Star) (chunk : Z) (m : list Z)
  (joint_fit : bool) : result (matrix * list num) :=
  tm ← np_take (time star) m;
  err ← np_take (fraw_err star) m;
  let K := GetCovariance (kernel star) (kernel_params star) tm err in
  if joint_fit then
    A ← foldM (joint_term star chunk m) (np_zeros (length m) (length m))
              (seq 0 (pld_order star));
    K ← mat_iadd K A;
    fl ← np_take (fraw star) m;
    Ok (K, fl)
  else
    fl ← np_take (flux star) m;
    Ok (K, fl).

(** the state of the loop that builds the uniform grid *)
Record grid_state := {
  g_time : list num;
  g_gaps : list nat;
  g_j : nat
}.

(** [for i, t in enumerate(tunif)], from slot [i] on *)
Fixpoint grid_loop (obs : list num) (tol : num) (i : nat) (tunif : list num)
  (st : grid_state) : result grid_state :=
  match tunif with
  | [] => Ok st
  | t :: rest =>
      o ← py_index obs (Z.of_nat (g_j st));
      if nltb (nabs (nsub o t)) tol then
        let st' := {| g_time := <[i := o]> (g_time st);
                      g_gaps := g_gaps st;
                      g_j := S (g_j st) |} in
        if (g_j st' =? length obs)%nat then Ok st'
        else grid_loop obs tol (S i) rest st'
      else
        grid_loop obs tol (S i) rest
          {| g_time := g_time st; g_gaps := g_gaps st ++ [i]; g_j := g_j st |}
  end.

(** the uniform time array of the observed times [obs = star.time[m]] *)
Definition uniform_grid (obs : list num) : result grid_state :=
  let dt := np_median (np_diff obs) in
  let tol := ndiv (np_nanmedian (np_diff obs)) (Fin 5) in
  first ← py_index obs 0;
  last ← py_index obs (-1);
  tunif ← np_arange first (nadd last tol) dt;
  grid_loop obs tol 0 tunif {| g_time := tunif; g_gaps := []; g_j := 0 |}.

Definition GetChunkData (star : Star) (chunk : Z) (joint_fit : bool)
  : result (list num * list nat * list num * Factor) :=
  let m := get_masked_chunk star chunk in
  '(K, fl) ← chunk_covariance star chunk m joint_fit;
  C ← cho_factor K;
  obs ← np_take (time star) m;
  st ← uniform_grid obs;
  Ok (g_time st, g_gaps st, fl, C).

(** *** [Search] *)

(** the three arrays of a chunk scan *)
Record scan_state := {
  s_d : list num;
  s_var : list num;
  s_dchisq : list num
}.

(** the body of the loop over the cadences: candidate [i] *)
Definition scan_step (t : list num) (gaps : list nat) (fl : list num)
  (C : Factor) (baseline lnL0 : num) (st : scan_state) (i : nat)
  : result scan_state :=
  ti ← py_index t (Z.of_nat i);
  let trn := transit_model t ti in
  trn ← np_delete trn (map Z.of_nat gaps);
  let trn := np_scale trn baseline in
  s ← cho_solve C trn;
  dd ← np_dot trn s;
  let var := <[i := ndiv (Fin 1) dd]> (s_var st) in
  vi ← py_index var (Z.of_nat i);
  if negb (isfinite vi) then
    Ok {| s_d := <[i := NaN]> (s_d st);
          s_var := <[i := NaN]> var;
          s_dchisq := <[i := NaN]> (s_dchisq st) |}
  else
    sf ← cho_solve C fl;
    df ← np_dot trn sf;
    let d := <[i := nmul vi df]> (s_d st) in
    di ← py_index d (Z.of_nat i);
    r ← np_sub fl (np_scale trn di);
    sr ← cho_solve C r;
    dr ← np_dot r sr;
    let lnL := nmul (Fin (-1 # 2)) dr in
    Ok {| s_d := d;
          s_var := var;
          s_dchisq := <[i := nmul (Fin (-2 # 1)) (nsub lnL0 lnL)]> (s_dchisq st) |}.

(** the scan of one chunk *)
Definition scan_chunk (t : list num) (gaps : list nat) (fl : list num)
  (C : Factor) : result scan_state :=
  let baseline := np_nanmedian fl in
  sf ← cho_solve C fl;
  d0 ← np_dot fl sf;
  let lnL0 := nmul (Fin (-1 # 2)) d0 in
  let zeros := replicate (length t) (Fin 0) in
  foldM (scan_step t gaps fl C baseline lnL0)
        {| s_d := zeros; s_var := zeros; s_dchisq := zeros |}
        (seq 0 (length t)).

(** the body of the loop over the chunks *)
Definition search_chunk (star : Star) (joint_fit : bool)
  (acc : SearchResult) (b : nat) : result SearchResult :=
  '(t, gaps, fl, C) ← GetChunkData star (Z.of_nat b) joint_fit;
  st ← scan_chunk t gaps fl C;
  Ok {| sr_time := sr_time acc ++ t;
        sr_ml_depth := sr_ml_depth acc ++ s_d st;
        sr_depth_variance := sr_depth_variance acc ++ s_var st;
        sr_delta_chisq := sr_delta_chisq acc ++ s_dchisq st |}.

(** the recomputation branch, after [MaskOutliers] *)
Definition compute (star : Star) (joint_fit : bool) : result SearchResult :=
  foldM (search_chunk star joint_fit)
        {| sr_time := []; sr_ml_depth := []; sr_depth_variance := [];
           sr_delta_chisq := [] |}
        (seq 0 (length (breakpoints star))).

(** what a call leaves behind: the value or the exception, the star
    (a mutable object) and the disk *)
Record outcome := {
  returned : result SearchResult;
  star_after : Star;
  disk_after : disk
}.

Definition Search (star : Star) (d : disk) (joint_fit clobber : bool)
  (pos_tol neg_tol : num) : outcome :=
  let name := cache_name (ID star) joint_fit in
  if clobber || negb (path_exists d name) then
    match MaskOutliers star pos_tol neg_tol with
    | Err e => {| returned := Err e; star_after := star; disk_after := d |}
    | Ok star' =>
        match compute star' joint_fit with
        | Err e => {| returned := Err e; star_after := star'; disk_after := d |}
        | Ok r =>
            match np_savez d name r with
            | Err e => {| returned := Err e; star_after := star';
                          disk_after := np_savez_failed d name |}
            | Ok d' => {| returned := Ok r; star_after := star'; disk_after := d' |}
            end
        end
    end
  else
    {| returned := np_load d name; star_after := star; disk_after := d |}.

End Pipeline.

(** ** A concrete instance of the externals

    White noise: the covariance is diagonal, its factorisation is the
    list of its diagonal entries, one chunk holds every cadence no mask
    excludes, the transit shape is a one-cadence box of depth one, the
    design matrix of order [n] has the single column [fraw ^ (n + 1)]. *)

Module Instance.

Definition Factor : Type := list num.

Definition get_masked_chunk (star : Star) (chunk : Z) : list Z :=
  filter (λ i, i ∉ nanmask star ++ badmask star ++ outmask star ++ transitmask star)
         (map Z.of_nat (seq 0 (length (time star)))).

Fixpoint npow (x : num) (n : nat) : num :=
  match n with O => Fin 1 | S n' => nmul x (npow x n') end.

Definition design (star : Star) (n : nat) (m : list Z) : matrix :=
  map (λ i, [npow (default NaN (fraw star !! Z.to_nat i)) (S n)]) m.

Definition GetCovariance (kernel : string) (params t err : list num) : matrix :=
  imap (λ i e, <[i := nmul e e]> (replicate (length err) (Fin 0))) err.

Definition SavGol (f : list num) : list num := f.

Definition transit_model (t : list num) (t0 : num) : list num :=
  map (λ x, if neqb x t0 then Fin (-1 # 1) else Fin 0) t.

(** this instance factorises diagonal matrices only *)
Definition is_diagonal (K : matrix) : bool :=
  forallb (λ x, x) (imap (λ i r, forallb (λ x, x)
                     (imap (λ j x, (i =? j)%nat || neqb x (Fin 0)) r)) K).

Definition cho_factor (K : matrix) : result Factor :=
  if is_diagonal K then
    mapM (λ i, match K !! i ≫= (.!! i) with
               | Some (Fin q) => if Qltb 0 q then Ok (Fin q) else Err LinAlgError
               | _ => Err LinAlgError
               end) (seq 0 (length K))
  else Err LinAlgError.

(** as [scipy.linalg.cho_solve] with [check_finite = True], a
    right-hand side that holds [inf] or [nan] is refused *)
Definition cho_solve (C : Factor) (b : list num) : result (list num) :=
  if negb (forallb isfinite b) then Err NonFiniteError
  else if (length C =? length b)%nat then Ok (zip_with ndiv b C)
  else Err ShapeError.

Definition Search :=
  Search Factor get_masked_chunk design GetCovariance SavGol transit_model
         cho_factor cho_solve.
Definition GetChunkData :=
  GetChunkData Factor get_masked_chunk design GetCovariance cho_factor.

Definition star0 : Star :=
  {| ID := 1;
     time := map of_Z [0; 1; 2; 4; 5; 6];
     flux := map of_Z [1; 1; 0; 1; 1; 1];
     fraw := map of_Z [2; 2; 1; 2; 2; 2];
     fraw_err := map of_Z [1; 1; 1; 1; 1; 1];
     nanmask := []; badmask := []; outmask := [5]; transitmask := [3];
     breakpoints := [5];
     kernel := "Basic"; kernel_params := [];
     pld_order := 1;
     lam := [[Fin 1]] |}.

(** the same light curve with a raw flux that keeps the joint
    covariance diagonal *)
Definition star1 : Star :=
  {| ID := 1;
     time := time star0; flux := flux star0;
     fraw := map of_Z [0; 0; 3; 0; 0; 0];
     fraw_err := fraw_err star0;
     nanmask := []; badmask := []; outmask := [5]; transitmask := [3];
     breakpoints := [5];
     kernel := "Basic"; kernel_params := [];
     pld_order := 1;
     lam := [[Fin 2]] |}.

Definition disk0 : disk := {| files := ∅; read_only := false; no_space := false |}.

End Instance.

(** ** Predicates and characterisations used by the statements *)

(** the three arrays of a scan have [n] slots *)
Definition sized (n : nat) (st : scan_state) : Prop :=
  length (s_d st) = n ∧ length (s_var st) = n ∧ length (s_dchisq st) = n.

Section Characterisation.

Variable Factor : Type.
Variable transit_model : list num → num → list num.
Variable cho_solve : Factor → list num → result (list num).

(** the values candidate [i] of a chunk scan writes at slot [i] *)
Definition candidate (t : list num) (gaps : list nat) (fl : list num)
  (C : Factor) (baseline lnL0 : num) (i : nat) : result (num * num * num) :=
  ti ← py_index t (Z.of_nat i);
  shape0 ← np_delete (transit_model t ti) (map Z.of_nat gaps);
  let shape := np_scale shape0 baseline in
  s ← cho_solve C shape;
  dd ← np_dot shape s;
  let v := ndiv (Fin 1) dd in
  if negb (isfinite v) then Ok (NaN, NaN, NaN)
  else
    sf ← cho_solve C fl;
    df ← np_dot shape sf;
    let d := nmul v df in
    r ← np_sub fl (np_scale shape d);
    sr ← cho_solve C r;
    dr ← np_dot r sr;
    Ok (d, v, nmul (Fin (-2 # 1)) (nsub lnL0 (nmul (Fin (-1 # 2)) dr))).

Definition put (st : scan_state) (i : nat) (c : num * num * num) : scan_state :=
  {| s_d := <[i := c.1.1]> (s_d st);
     s_var := <[i := c.1.2]> (s_var st);
     s_dchisq := <[i := c.2]> (s_dchisq st) |}.

(** The inputs [GetChunkData] and the externals hand to the scan of a
    chunk without undefined values: the flux is finite and has one value
    per slot that is not a gap, the gaps are slots of the grid, the
    shape provider returns one finite value per grid slot when centred
    on a slot, and the factorisation solves every finite system of that
    size, with a finite solution.  Nothing is asked of the solver on a
    right-hand side that holds [inf] or [nan]. *)
Definition well_shaped (t : list num) (gaps : list nat) (fl : list num)
  (C : Factor) : Prop :=
  Forall finite fl
  ∧ (∀ c, length (transit_model t c) = length t)
  ∧ (∀ c, c ∈ t → Forall finite (transit_model t c))
  ∧ Forall (λ g, (g < length t)%nat) gaps
  ∧ length (remove_at gaps 0 t) = length fl
  ∧ (∀ v, length v = length fl → Forall finite v →
       ∃ s, cho_solve C v = Ok s ∧ length s = length v ∧ Forall finite s).

End Characterisation.

(** *** Outlier masks *)

(** the star with other outlier and in-transit masks *)
Definition with_masks (star : Star) (out trn : list Z) : Star :=
  {| ID := ID star; time := time star; flux := flux star;
     fraw := fraw star; fraw_err := fraw_err star;
     nanmask := nanmask star; badmask := badmask star;
     outmask := out; transitmask := trn;
     breakpoints := breakpoints star; kernel := kernel star;
     kernel_params := kernel_params star; pld_order := pld_order star;
     lam := lam star |}.

(** a mask index that is a position of an array of [n] cadences, counted
    from the start or from the end *)
Definition valid_index (n : nat) (i : Z) : Prop :=
  - Z.of_nat n <= i < Z.of_nat n.

(** *** File names *)

(** no full stop in the string *)
Fixpoint no_dot (s : string) : Prop :=
  match s with
  | EmptyString => True
  | String c s' => c ≠ "."%char ∧ no_dot s'
  end.

(** *** Results *)

(** the four arrays of a result have the same length *)
Definition aligned (r : SearchResult) : Prop :=
  length (sr_ml_depth r) = length (sr_time r)
  ∧ length (sr_depth_variance r) = length (sr_time r)
  ∧ length (sr_delta_chisq r) = length (sr_time r).

(** *** Matrices *)

(** the entry [A[i, j]] *)
Definition entry (A : matrix) (i j : nat) : option num :=
  A !! i ≫= (.!! j).

(** [A] has [n] rows of [n] columns *)
Definition square (n : nat) (A : matrix) : Prop :=
  length A = n ∧ Forall (λ row, length row = n) A.

(** the row [X[i]] of a design matrix *)
Definition row (X : matrix) (i : nat) : list num := default [] (X !! i).

(** [sum over k in [k0, k0 + cnt) of lam_k * (X_k X_k^T)[i, j]], added
    to [a] in the order of the loop *)
Definition joint_sum (lamn : nat → num) (X : nat → matrix) (a : num)
  (k0 cnt i j : nat) : num :=
  foldl (λ acc k, nadd acc (nmul (lamn k) (row_dot (row (X k) i) (row (X k) j))))
        a (seq k0 cnt).

(** [star.lam[chunk][k]] *)
Definition lam_at (star : Star) (chunk : Z) (k : nat) : result num :=
  lam_chunk ← py_index (lam star) chunk; py_index lam_chunk (Z.of_nat k).

Definition lam_val (star : Star) (chunk : Z) (k : nat) : num :=
  match lam_at star chunk k with Ok x => x | Err _ => NaN end.

(** *** Folding *)

(** the number of fold times of a trial and the value of the [i]-th *)
Definition fold_count (a b P phi : Q) : Z :=
  Qtrunc ((b - (a + phi * P)) / P).

(** *** The uniform grid *)

(** the value of a finite number *)
Definition qval (x : num) : Q := match x with Fin q => q | _ => 0%Q end.

(** the exact sum of products of two rows *)
Fixpoint dotQ (a b : list num) : Q :=
  match a, b with
  | x :: a', y :: b' => (qval x * qval y + dotQ a' b')%Q
  | _, _ => 0%Q
  end.



(** a diagonal factor with non-zero finite entries *)
Definition nonzero_diagonal (C : list num) : Prop :=
  Forall (λ c, ∃ q, c = Fin q ∧ ¬ (q == 0)%Q) C.



Section GridInvariant.

Variable obs : list num.
Variable tol : num.
(** the whole of [tunif] *)
Variable slots : list num.

(** [np.abs(o - t) < tol] *)
Definition close (o t : num) : Prop := nltb (nabs (nsub o t)) tol = true.

(** what holds when the loop reaches slot [i] *)
Record grid_inv (i : nat) (st : grid_state) : Prop := {
  inv_len : length (g_time st) = length slots;
  inv_rest : drop i (g_time st) = drop i slots;
  inv_gaps : Forall (λ g, (g < i)%nat) (g_gaps st);
  inv_j : (g_j st ≤ length obs)%nat;
  inv_nongap : remove_at (g_gaps st) 0 (take i (g_time st)) = take (g_j st) obs;
  inv_close : ∀ k, (k < i)%nat →
    ∃ x u, g_time st !! k = Some x ∧ slots !! k = Some u ∧ (x = u ∨ close x u);
  inv_last : g_j st = length obs → (0 < length obs)%nat →
    ∃ i' o u, i = S i' ∧ obs !! (length obs - 1)%nat = Some o
              ∧ slots !! i' = Some u ∧ close o u
}.

End GridInvariant.

(** ** Concrete inputs *)

Module Inputs.
Import Instance.

(** the grid, the gaps, the flux and the factorisation [GetChunkData]
    returns for the first chunk of [star0] *)
Definition t1 : list num := map of_Z [0; 1; 2; 3; 4; 5].
Definition gaps1 : list nat := [3; 4]%nat.
Definition fl1 : list num := map of_Z [1; 1; 0; 1].
Definition C1 : Factor := map of_Z [1; 1; 1; 1].

(** what a first run on [star0] computes, and the star it leaves *)
Definition result0 : SearchResult :=
  {| sr_time := map of_Z [0; 1; 2; 3; 4; 5; 6];
     sr_ml_depth := [Fin (-1); Fin (-1); NaN; NaN; Fin (-1); Fin (-1); Fin (-1)];
     sr_depth_variance := [Fin 1; Fin 1; NaN; NaN; Fin 1; Fin 1; Fin 1];
     sr_delta_chisq := [Fin 1; Fin 1; NaN; NaN; Fin 1; Fin 1; Fin 1] |}.

Definition star0' : Star := with_masks star0 [2] [].

Definition pos_tol0 : num := pos_tol_default.
Definition neg_tol0 : num := neg_tol_default.

(** a disk that already holds a result, a disk whose cached file is
    damaged, and a disk that refuses writes *)
Definition cached0 : SearchResult :=
  {| sr_time := map of_Z [0; 1]; sr_ml_depth := map of_Z [7; 8];
     sr_depth_variance := map of_Z [1; 1]; sr_delta_chisq := map of_Z [3; 4] |}.
Definition disk_hit : disk :=
  {| files := {[ cache_name 1 false := Npz cached0 ]}; read_only := false;
     no_space := false |}.
Definition disk_corrupt : disk :=
  {| files := {[ cache_name 1 false := Corrupt ]}; read_only := false;
     no_space := false |}.
Definition disk_full : disk :=
  {| files := ∅; read_only := true; no_space := false |}.

(** a disk with no room left *)
Definition disk_no_space : disk :=
  {| files := ∅; read_only := false; no_space := true |}.

(** eleven cadences one day apart, and delta chi-square values whose
    sums tell which ones were added *)
Definition time10 : list num := map of_Z [0; 1; 2; 3; 4; 5; 6; 7; 8; 9; 10].
Definition dchisq10 : list num :=
  map of_Z [1; 2; 4; 8; 16; 32; 64; 128; 256; 512; 1024].

Definition time_dup : list num := map of_Z [0; 0; 0; 5].

(** four cadences, the third and fourth half a spacing off the grid; and
    four cadences on the grid, one slot missing *)
Definition obs_off : list num := [Fin 0; Fin 1; Fin (5 # 2); Fin (7 # 2)].
Definition obs_on : list num := map of_Z [0; 1; 2; 4].

Definition star_off : Star :=
  {| ID := 2;
     time := obs_off;
     flux := map of_Z [1; 1; 1; 1];
     fraw := map of_Z [1; 1; 1; 1];
     fraw_err := map of_Z [1; 1; 1; 1];
     nanmask := []; badmask := []; outmask := []; transitmask := [];
     breakpoints := [3];
     kernel := "Basic"; kernel_params := [];
     pld_order := 0;
     lam := [[]] |}.

(** four cadences one day apart, the second with an undefined delta
    chi-square *)
Definition time4 : list num := map of_Z [0; 1; 2; 3].
Definition dchisq_nan : list num := [Fin 1; NaN; Fin 1; Fin 1].

(** [star0] with a nan mask that points outside its six cadences, and
    with masks that leave only its first cadence *)
Definition star_bad : Star :=
  {| ID := 1;
     time := time star0; flux := flux star0; fraw := fraw star0;
     fraw_err := fraw_err star0;
     nanmask := [7]; badmask := []; outmask := []; transitmask := [];
     breakpoints := [5];
     kernel := "Basic"; kernel_params := [];
     pld_order := 1;
     lam := [[Fin 1]] |}.
Definition star_one : Star :=
  {| ID := 1;
     time := time star0; flux := flux star0; fraw := fraw star0;
     fraw_err := fraw_err star0;
     nanmask := [1; 2]; badmask := [3; 4; 5]; outmask := []; transitmask := [];
     breakpoints := [5];
     kernel := "Basic"; kernel_params := [];
     pld_order := 1;
     lam := [[Fin 1]] |}.

(** a flux and a diagonal factorisation with unequal entries, for the
    grid [t1] and the gaps [gaps1] *)
Definition fl2 : list num := map of_Z [3; 1; 2; 5].
Definition C2 : Factor := map of_Z [1; 2; 4; 1].

End Inputs.

(** ** Basic facts *)

Arguments nadd : simpl never.
Arguments nsub : simpl never.
Arguments nmul : simpl never.
Arguments ndiv : simpl never.
Arguments nabs : simpl never.
Arguments nltb : simpl never.
Arguments nleb : simpl never.
Arguments neqb : simpl never.
Arguments py_index : simpl never.
Arguments py_int : simpl never.
Arguments py_round : simpl never.
Arguments np_delete : simpl never.
Arguments np_take : simpl never.
Arguments np_dot : simpl never.
Arguments np_sub : simpl never.
Arguments np_arange : simpl never.
Arguments np_nanmedian : simpl never.
Arguments np_median : simpl never.
Arguments mat_iadd : simpl never.

Lemma bind_Ok {A B : Type} (r : result A) (f : A → result B) (b : B) :
  r ≫= f = Ok b ↔ ∃ a, r = Ok a ∧ f a = Ok b.
Proof.
  destruct r as [a|e]; simpl; split.
  - intros H. by exists a.
  - by intros (a' & [= <-] & H).
  - intros H. discriminate H.
  - by intros (a' & H & _).
Qed.

Lemma py_index_nat {A : Type} (l : list A) (i : nat) (x : A) :
  py_index l (Z.of_nat i) = Ok x ↔ l !! i = Some x.
Proof.
  unfold py_index.
  destruct (Z.ltb_spec (Z.of_nat i) 0) as [?|_]; [lia|].
  rewrite Nat2Z.id.
  destruct (Z.ltb_spec (Z.of_nat i) 0) as [?|_]; [lia|]. simpl.
  destruct (Z.leb_spec (Z.of_nat (length l)) (Z.of_nat i)) as [Hge|Hlt].
  - split; [discriminate|]. intros H%lookup_lt_Some. lia.
  - destruct (l !! i) as [a|]; split; congruence.
Qed.

Lemma py_index_nat_lt {A : Type} (l : list A) (i : nat) :
  (i < length l)%nat → ∃ x, py_index l (Z.of_nat i) = Ok x ∧ l !! i = Some x.
Proof.
  intros [x Hx]%lookup_lt_is_Some. exists x. split; [|done].
  by apply py_index_nat.
Qed.

Lemma mapM_Ok_length {A B : Type} (f : A → result B) (l : list A) (l' : list B) :
  mapM f l = Ok l' → length l' = length l.
Proof.
  revert l'. induction l as [|x l IH]; intros l'; simpl.
  - by intros [= <-].
  - destruct (f x) as [y|e]; simpl; [|discriminate].
    destruct (mapM f l) as [ys|e]; simpl; [|discriminate].
    intros [= <-]. simpl. by rewrite (IH ys).
Qed.

Lemma norm_index_nat (n g : nat) :
  (g < n)%nat → norm_index n (Z.of_nat g) = Ok g.
Proof.
  intros Hg. unfold norm_index.
  destruct (Z.ltb_spec (Z.of_nat g) 0) as [?|_]; [lia|].
  destruct (Z.ltb_spec (Z.of_nat g) 0) as [?|_]; [lia|].
  destruct (Z.leb_spec (Z.of_nat n) (Z.of_nat g)) as [?|_]; [lia|].
  simpl. by rewrite Nat2Z.id.
Qed.

Lemma mapM_norm_index_nat (n : nat) (gaps : list nat) :
  Forall (λ g, (g < n)%nat) gaps →
  mapM (norm_index n) (map Z.of_nat gaps) = Ok gaps.
Proof.
  induction 1 as [|g gaps Hg _ IH]; simpl; [done|].
  rewrite norm_index_nat by done. simpl. by rewrite IH.
Qed.

(** deleting in-range positions never raises *)
Lemma np_delete_nat {A : Type} (l : list A) (gaps : list nat) :
  Forall (λ g, (g < length l)%nat) gaps →
  np_delete l (map Z.of_nat gaps) = Ok (remove_at gaps 0 l).
Proof.
  intros H. unfold np_delete. by rewrite mapM_norm_index_nat.
Qed.

(** how many elements survive depends on the length only *)
Lemma remove_at_length {A B : Type} (ks : list nat) (l : list A) (l' : list B) :
  length l = length l' →
  ∀ i, length (remove_at ks i l) = length (remove_at ks i l').
Proof.
  revert l'. induction l as [|x l IH]; intros [|y l'] Hlen i; simpl in *;
    try done.
  destruct (bool_decide (i ∈ ks)); simpl; rewrite (IH l'); auto.
Qed.

Lemma np_scale_length (a : list num) (x : num) :
  length (np_scale a x) = length a.
Proof. unfold np_scale. by rewrite length_map. Qed.

Lemma np_dot_Ok (a b : list num) :
  length a = length b → np_dot a b = Ok (row_dot a b).
Proof. intros H. unfold np_dot. by rewrite H, Nat.eqb_refl. Qed.

Lemma np_dot_inv (a b : list num) (x : num) :
  np_dot a b = Ok x → x = row_dot a b ∧ length a = length b.
Proof.
  unfold np_dot. destruct (Nat.eqb_spec (length a) (length b)); [|discriminate].
  by intros [= <-].
Qed.

Lemma np_sub_Ok (a b : list num) :
  length a = length b → np_sub a b = Ok (zip_with nsub a b).
Proof.
  intros H. unfold np_sub, broadcast_row.
  destruct (Nat.eqb_spec (length a) 1) as [H1|H1]; simpl.
  - by rewrite H, Nat.eqb_refl.
  - rewrite Nat.eqb_refl. simpl. by rewrite <- H, Nat.eqb_refl.
Qed.

(** ** Outlier masking and the cache *)

Section CacheClaims.

Variable Factor : Type.
Variable get_masked_chunk : Star → Z → list Z.
Variable design : Star → nat → list Z → matrix.
Variable GetCovariance : string → list num → list num → list num → matrix.
Variable SavGol : list num → list num.
Variable transit_model : list num → num → list num.
Variable cho_factor : matrix → result Factor.
Variable cho_solve : Factor → list num → result (list num).

Abbreviation mask_outliers := (MaskOutliers SavGol).
Abbreviation recompute :=
  (compute Factor get_masked_chunk design GetCovariance transit_model
           cho_factor cho_solve).
Abbreviation search :=
  (Search Factor get_masked_chunk design GetCovariance SavGol transit_model
          cho_factor cho_solve).

(** the masks the star held before the call play no part *)
Lemma MaskOutliers_with_masks star out trn pos_tol neg_tol :
  mask_outliers (with_masks star out trn) pos_tol neg_tol
  = mask_outliers star pos_tol neg_tol.
Proof. reflexivity. Qed.

(** a successful call keeps the identifier and empties the in-transit
    mask *)
Lemma MaskOutliers_keeps star pos_tol neg_tol star' :
  mask_outliers star pos_tol neg_tol = Ok star' →
  ID star' = ID star ∧ transitmask star' = [].
Proof.
  unfold MaskOutliers. intros H.
  apply bind_Ok in H as (t & _ & H).
  apply bind_Ok in H as (f0 & _ & H).
  apply bind_Ok in H as (pos_inds & _ & H).
  apply bind_Ok in H as (neg_inds & _ & H).
  by injection H as <-.
Qed.

(** C10: [MaskOutliers] writes the outlier mask and the in-transit mask
    and nothing else: the outlier mask becomes the negative outliers
    followed by the positive ones, whatever it held before, the
    in-transit mask becomes empty, every other field keeps its value. *)
Theorem MaskOutliers_frame star pos_tol neg_tol star' :
  mask_outliers star pos_tol neg_tol = Ok star' →
  (∃ t f0 pos_inds neg_inds,
      let f := SavGol f0 in
      let med := np_nanmedian f in
      let MAD := nmul (Fin (7413 # 5000))
                      (np_nanmedian (map (λ x, nabs (nsub x med)) f)) in
      np_delete (time star) (nanmask star ++ badmask star) = Ok t
      ∧ np_delete (flux star) (nanmask star ++ badmask star) = Ok f0
      ∧ outlier_inds star t f (λ x, ngtb x (nadd med (nmul pos_tol MAD)))
        = Ok pos_inds
      ∧ outlier_inds star t f (λ x, nltb x (nsub med (nmul neg_tol MAD)))
        = Ok neg_inds
      ∧ outmask star' = neg_inds ++ pos_inds)
  ∧ transitmask star' = []
  ∧ (∀ out trn, mask_outliers (with_masks star out trn) pos_tol neg_tol = Ok star')
  ∧ ID star' = ID star
  ∧ time star' = time star
  ∧ flux star' = flux star
  ∧ fraw star' = fraw star
  ∧ fraw_err star' = fraw_err star
  ∧ nanmask star' = nanmask star
  ∧ badmask star' = badmask star
  ∧ breakpoints star' = breakpoints star
  ∧ kernel star' = kernel star
  ∧ kernel_params star' = kernel_params star
  ∧ pld_order star' = pld_order star
  ∧ lam star' = lam star.
Proof.
  intros H. assert (H' := H). unfold MaskOutliers in H'.
  apply bind_Ok in H' as (t & Ht & H').
  apply bind_Ok in H' as (f0 & Hf0 & H').
  apply bind_Ok in H' as (pos_inds & Hpos & H').
  apply bind_Ok in H' as (neg_inds & Hneg & H').
  injection H' as <-. simpl.
  split; [by exists t, f0, pos_inds, neg_inds|].
  split; [done|]. split; [|done].
  intros out trn. by rewrite MaskOutliers_with_masks.
Qed.

(** the cache hit *)
Lemma Search_cache_hit star d joint_fit pos_tol neg_tol r :
  files d !! cache_name (ID star) joint_fit = Some (Npz r) →
  search star d joint_fit false pos_tol neg_tol
  = {| returned := Ok r; star_after := star; disk_after := d |}.
Proof.
  intros Hr. unfold Search, path_exists, np_load. rewrite Hr.
  rewrite bool_decide_eq_true_2 by (by eexists). done.
Qed.

(** C8: with a persisted result for the target and the joint-fit flag
    and no forced recomputation, [Search] returns the persisted value
    itself and touches neither the star (no outlier masking) nor the
    disk, whatever the externals would compute; with a forced
    recomputation the masks are reset by [MaskOutliers], whatever they
    held, and the result is the one recomputed from the re-masked
    star, then saved. *)
Theorem Search_cache_policy star d joint_fit pos_tol neg_tol :
  (∀ r,
      files d !! cache_name (ID star) joint_fit = Some (Npz r) →
      search star d joint_fit false pos_tol neg_tol
      = {| returned := Ok r; star_after := star; disk_after := d |})
  ∧ (∀ star',
        mask_outliers star pos_tol neg_tol = Ok star' →
        let o := search star d joint_fit true pos_tol neg_tol in
        star_after o = star'
        ∧ transitmask star' = []
        ∧ (∀ out trn,
              search (with_masks star out trn) d joint_fit true pos_tol neg_tol = o)
        ∧ returned o
          = (r ← recompute star' joint_fit;
             _ ← np_savez d (cache_name (ID star) joint_fit) r;
             Ok r)).
Proof.
  split.
  - intros r Hr. unfold Search, path_exists, np_load. rewrite Hr.
    rewrite bool_decide_eq_true_2 by (by eexists). done.
  - intros star' Hm o. subst o. unfold Search.
    rewrite orb_true_l.
    split; [|split; [|split]].
    + rewrite Hm. destruct (recompute _ _) as [r|e]; simpl; [|done].
      by destruct (np_savez _ _ _).
    + by apply MaskOutliers_keeps in Hm as [_ ?].
    + intros out trn. by rewrite MaskOutliers_with_masks, Hm.
    + rewrite Hm. destruct (recompute _ _) as [r|e]; simpl; [|done].
      by destruct (np_savez _ _ _).
Qed.

(** C9, as the code has it: an unreadable persisted result makes
    [Search] raise the read error, with nothing recomputed and nothing
    changed; a failing write makes it raise the write error in place of
    the result it has just computed. *)
Theorem Search_cache_errors star d joint_fit pos_tol neg_tol :
  (files d !! cache_name (ID star) joint_fit = Some Corrupt →
   search star d joint_fit false pos_tol neg_tol
   = {| returned := Err IOError; star_after := star; disk_after := d |})
  ∧ (∀ clobber star' r,
        read_only d = true →
        clobber || negb (path_exists d (cache_name (ID star) joint_fit)) = true →
        mask_outliers star pos_tol neg_tol = Ok star' →
        recompute star' joint_fit = Ok r →
        search star d joint_fit clobber pos_tol neg_tol
        = {| returned := Err IOError; star_after := star'; disk_after := d |}).
Proof.
  split.
  - intros Hc. unfold Search, path_exists, np_load. rewrite Hc.
    rewrite bool_decide_eq_true_2 by (by eexists). done.
  - intros clobber star' r Hro Hgo Hm Hr. unfold Search.
    rewrite Hgo, Hm, Hr. unfold np_savez, np_savez_failed. by rewrite Hro.
Qed.

(** X18: a second run without clobber, on the star and the disk a
    successful run leaves, returns the same value, from the cache, and
    changes nothing more. *)
Lemma Search_idempotent star d joint_fit clobber pos_tol neg_tol r :
  let o := Search Factor get_masked_chunk design GetCovariance SavGol
             transit_model cho_factor cho_solve
             star d joint_fit clobber pos_tol neg_tol in
  returned o = Ok r →
  Search Factor get_masked_chunk design GetCovariance SavGol
    transit_model cho_factor cho_solve
    (star_after o) (disk_after o) joint_fit false pos_tol neg_tol
  = {| returned := Ok r; star_after := star_after o; disk_after := disk_after o |}.
Proof.
  intros o. remember o as o' eqn:Ho. subst o. unfold Search in Ho.
  destruct (clobber || negb (path_exists d (cache_name (ID star) joint_fit))).
  - destruct (mask_outliers star pos_tol neg_tol) as [star'|e] eqn:Hm;
      [|by subst o'].
    destruct (recompute star' joint_fit) as [r'|e]; [|by subst o'].
    unfold np_savez in Ho.
    destruct (read_only d); subst o'; [done|].
    destruct (no_space d); [done|]. simpl.
    intros [= ->].
    apply MaskOutliers_keeps in Hm as [HID _].
    apply Search_cache_hit. simpl. rewrite HID. apply lookup_insert_eq.
  - subst o'. simpl. unfold np_load.
    destruct (files d !! cache_name (ID star) joint_fit) as [[r'|]|] eqn:Hf;
      try discriminate.
    intros [= ->]. by apply Search_cache_hit.
Qed.

End CacheClaims.

(** ** The claims on the concrete instance *)

Module InstanceFacts.
Import Instance Inputs.

Lemma chunk1 : GetChunkData star0 0 false = Ok (t1, gaps1, fl1, C1).
Proof. vm_compute. reflexivity. Qed.

Lemma MaskOutliers_star0 :
  MaskOutliers SavGol star0 pos_tol0 neg_tol0 = Ok star0'.
Proof. vm_compute. reflexivity. Qed.

Lemma compute_star0' :
  compute Factor get_masked_chunk design GetCovariance transit_model
          cho_factor cho_solve star0' false = Ok result0.
Proof. vm_compute. reflexivity. Qed.

Lemma MaskOutliers_frame_witness :
  MaskOutliers SavGol star0 pos_tol0 neg_tol0 = Ok star0'
  ∧ transitmask star0' = []
  ∧ time star0' = time star0.
Proof.
  split; [exact MaskOutliers_star0|].
  destruct (MaskOutliers_frame SavGol star0 pos_tol0 neg_tol0 star0'
              MaskOutliers_star0) as (_ & Ht & _ & _ & Htime & _).
  by split.
Defined.

Lemma Search_cache_policy_witness :
  Search star0 disk_hit false false pos_tol0 neg_tol0
  = {| returned := Ok cached0; star_after := star0; disk_after := disk_hit |}
  ∧ star_after (Search star0 disk_hit false true pos_tol0 neg_tol0) = star0'.
Proof.
  destruct (Search_cache_policy Factor get_masked_chunk design GetCovariance
              SavGol transit_model cho_factor cho_solve
              star0 disk_hit false pos_tol0 neg_tol0) as [Hhit Hforce].
  split.
  - apply Hhit. vm_compute. reflexivity.
  - apply (Hforce star0' MaskOutliers_star0).
Defined.

Lemma Search_cache_errors_witness :
  returned (Search star0 disk_corrupt false false pos_tol0 neg_tol0) = Err IOError
  ∧ returned (Search star0 disk_full false false pos_tol0 neg_tol0) = Err IOError.
Proof.
  split.
  - destruct (Search_cache_errors Factor get_masked_chunk design GetCovariance
                SavGol transit_model cho_factor cho_solve
                star0 disk_corrupt false pos_tol0 neg_tol0) as [Hread _].
    unfold Search. rewrite Hread; [done|]. vm_compute. reflexivity.
  - destruct (Search_cache_errors Factor get_masked_chunk design GetCovariance
                SavGol transit_model cho_factor cho_solve
                star0 disk_full false pos_tol0 neg_tol0) as [_ Hwrite].
    unfold Search.
    rewrite (Hwrite false star0' result0 eq_refl eq_refl
               MaskOutliers_star0 compute_star0'). done.
Defined.

(** C9 fails: the cached file of [star0] is damaged and a recomputation
    would succeed, yet [Search] raises; and on a disk that refuses
    writes the computed result is lost to the write error. *)
Lemma Search_no_fallback :
  returned (Search star0 disk_corrupt false false pos_tol0 neg_tol0) = Err IOError
  ∧ returned (Search star0 disk_corrupt false true pos_tol0 neg_tol0) = Ok result0
  ∧ returned (Search star0 disk_full false false pos_tol0 neg_tol0) = Err IOError
  ∧ compute Factor get_masked_chunk design GetCovariance transit_model
            cho_factor cho_solve star0' false = Ok result0.
Proof. repeat split; vm_compute; reflexivity. Qed.

(** two runs in a row on [star0] and an empty disk: the first computes
    and saves, the second returns the same value *)
Lemma Search_twice_star0 :
  let o := Search star0 disk0 false false pos_tol0 neg_tol0 in
  returned o = Ok result0
  ∧ star_after o = star0'
  ∧ returned (Search (star_after o) (disk_after o) false false pos_tol0 neg_tol0)
    = Ok result0.
Proof. repeat split; vm_compute; reflexivity. Qed.

End InstanceFacts.

(** ** The covariance of a chunk *)

Lemma square_entry n A i j :
  square n A → (i < n)%nat → (j < n)%nat → ∃ x, entry A i j = Some x.
Proof.
  intros [Hlen Hrows] Hi Hj. unfold entry.
  destruct (lookup_lt_is_Some_2 A i) as [r Hr]; [lia|].
  rewrite Hr. simpl.
  apply (Forall_lookup_1 _ _ _ _ Hrows) in Hr.
  apply lookup_lt_is_Some_2. lia.
Qed.

Lemma square_cols n A : square n A → mat_cols A = n.
Proof.
  intros [Hlen Hrows]. destruct A as [|r A]; simpl in *; [done|].
  by inversion Hrows.
Qed.

Lemma np_zeros_square n : square n (np_zeros n n).
Proof.
  unfold np_zeros. split.
  - by rewrite length_replicate.
  - apply Forall_replicate. by rewrite length_replicate.
Qed.

Lemma np_zeros_entry n i j :
  (i < n)%nat → (j < n)%nat → entry (np_zeros n n) i j = Some (Fin 0).
Proof.
  intros Hi Hj. unfold entry, np_zeros.
  rewrite lookup_replicate_2 by done. simpl.
  by rewrite lookup_replicate_2.
Qed.

Lemma mat_gram_square X : square (length X) (mat_gram X).
Proof.
  unfold mat_gram. split.
  - by rewrite length_map.
  - apply Forall_map, Forall_forall. intros r _. simpl. by rewrite length_map.
Qed.

Lemma mat_gram_entry X i j :
  (i < length X)%nat → (j < length X)%nat →
  entry (mat_gram X) i j = Some (row_dot (row X i) (row X j)).
Proof.
  intros Hi Hj. unfold entry, mat_gram, row.
  destruct (lookup_lt_is_Some_2 X i Hi) as [ri Hri].
  destruct (lookup_lt_is_Some_2 X j Hj) as [rj Hrj].
  rewrite list_lookup_fmap, Hri. simpl.
  by rewrite list_lookup_fmap, Hrj.
Qed.

Lemma mat_scale_square n x B : square n B → square n (mat_scale x B).
Proof.
  intros [Hlen Hrows]. unfold mat_scale. split.
  - by rewrite length_map.
  - apply Forall_map. eapply Forall_impl; [exact Hrows|].
    intros r Hr. simpl. by rewrite length_map.
Qed.

Lemma mat_scale_entry x B i j b :
  entry B i j = Some b → entry (mat_scale x B) i j = Some (nmul x b).
Proof.
  unfold entry, mat_scale. rewrite list_lookup_fmap.
  destruct (B !! i) as [r|]; simpl; [|done].
  rewrite list_lookup_fmap. by intros ->.
Qed.

Lemma mapM_broadcast_row_same c B :
  Forall (λ row, length row = c) B → mapM (broadcast_row c) B = Ok B.
Proof.
  induction 1 as [|r B Hr _ IH]; simpl; [done|].
  rewrite IH. unfold broadcast_row. by rewrite Hr, Nat.eqb_refl.
Qed.

(** adding a matrix of the same shape: no broadcasting, entry by entry *)
Lemma mat_iadd_square n A B :
  square n A → square n B →
  ∃ A', mat_iadd A B = Ok A' ∧ square n A'
        ∧ ∀ i j a b, entry A i j = Some a → entry B i j = Some b →
                     entry A' i j = Some (nadd a b).
Proof.
  intros HA HB. exists (zip_with (zip_with nadd) A B).
  unfold mat_iadd, broadcast_to. rewrite (square_cols n A HA).
  destruct HA as [HlA HrA], HB as [HlB HrB].
  rewrite mapM_broadcast_row_same by done. simpl.
  unfold mat_rows. rewrite HlA, HlB, Nat.eqb_refl.
  split; [done|]. split.
  - split.
    + rewrite length_zip_with. lia.
    + apply Forall_lookup. intros i r. rewrite lookup_zip_with.
      destruct (A !! i) as [a|] eqn:Ha; simpl; [|done].
      destruct (B !! i) as [b|] eqn:Hb; simpl; [|done].
      intros [= <-]. rewrite length_zip_with.
      apply (Forall_lookup_1 _ _ _ _ HrA) in Ha.
      apply (Forall_lookup_1 _ _ _ _ HrB) in Hb. lia.
  - intros i j a b. unfold entry. rewrite lookup_zip_with.
    destruct (A !! i) as [ra|]; simpl; [|done].
    destruct (B !! i) as [rb|]; simpl; [|done].
    rewrite lookup_zip_with. by intros -> ->.
Qed.

Lemma entry_lt n A i j a :
  square n A → entry A i j = Some a → (i < n)%nat ∧ (j < n)%nat.
Proof.
  intros [Hlen Hrows]. unfold entry.
  destruct (A !! i) as [r|] eqn:Hr; simpl; [|done].
  intros Hj. apply lookup_lt_Some in Hj.
  pose proof (lookup_lt_Some _ _ _ Hr).
  apply (Forall_lookup_1 _ _ _ _ Hrows) in Hr. lia.
Qed.

Section Covariance.

Variable Factor : Type.
Variable get_masked_chunk : Star → Z → list Z.
Variable design : Star → nat → list Z → matrix.
Variable GetCovariance : string → list num → list num → list num → matrix.
Variable cho_factor : matrix → result Factor.

Abbreviation term := (joint_term design).
Abbreviation covariance := (chunk_covariance design GetCovariance).
Abbreviation chunk_data :=
  (GetChunkData Factor get_masked_chunk design GetCovariance cho_factor).

(** the loop over the systematics orders [k0, k0 + cnt) *)
Lemma joint_loop star chunk m n cnt :
  ∀ k0 A A',
    square n A →
    (∀ k, (k0 ≤ k < k0 + cnt)%nat → length (design star k m) = n) →
    foldM (term star chunk m) A (seq k0 cnt) = Ok A' →
    square n A'
    ∧ (∀ k, (k0 ≤ k < k0 + cnt)%nat → ∃ l, lam_at star chunk k = Ok l)
    ∧ ∀ i j a, entry A i j = Some a →
        entry A' i j
        = Some (joint_sum (lam_val star chunk) (λ k, design star k m) a k0 cnt i j).
Proof.
  induction cnt as [|cnt IH]; intros k0 A A' HA HX; simpl.
  - intros [= <-]. split; [done|]. split; [intros k ?; lia|].
    intros i j a Ha. by rewrite Ha.
  - intros H. apply bind_Ok in H as (A1 & Hstep & Hrest).
    unfold joint_term in Hstep.
    apply bind_Ok in Hstep as (lamc & Hlamc & Hstep).
    apply bind_Ok in Hstep as (l & Hl & Hadd).
    assert (Hlam : lam_at star chunk k0 = Ok l).
    { unfold lam_at. rewrite Hlamc. simpl. exact Hl. }
    assert (HB : square n (mat_scale l (mat_gram (design star k0 m)))).
    { apply mat_scale_square. rewrite <- (HX k0) by lia. apply mat_gram_square. }
    destruct (mat_iadd_square n A _ HA HB) as (A1' & Hadd' & HA1 & Hent).
    rewrite Hadd in Hadd'. injection Hadd' as <-.
    destruct (IH (S k0) A1 A' HA1) as (HA' & Hlams & Hsum); [|done|].
    { intros k Hk. apply HX. lia. }
    split; [done|]. split.
    + intros k Hk. destruct (decide (k = k0)) as [->|Hne]; [by exists l|].
      apply Hlams. lia.
    + intros i j a Ha.
      destruct (entry_lt _ _ _ _ _ HA Ha) as [Hi Hj].
      rewrite (Hsum i j (nadd a (nmul l (row_dot (row (design star k0 m) i)
                                                  (row (design star k0 m) j))))).
      * assert (Hlv : lam_val star chunk k0 = l).
        { unfold lam_val. by rewrite Hlam. }
        unfold joint_sum. cbn [foldl seq]. by rewrite Hlv.
      * apply Hent; [done|].
        apply mat_scale_entry, mat_gram_entry; rewrite (HX k0); lia.
Qed.

(** C6: with [joint_fit], the matrix handed to the factorisation is the
    noise covariance plus, for every systematics order [k], the weight
    [lam[chunk][k]] times [X_k X_k^T] of that order's design matrix on
    the chunk, and the flux is the raw flux of the chunk; without it, the
    matrix is the noise covariance itself and the flux the detrended
    one. *)
Theorem GetChunkData_covariance star chunk joint_fit t gaps fl C :
  chunk_data star chunk joint_fit = Ok (t, gaps, fl, C) →
  let m := get_masked_chunk star chunk in
  let n := length m in
  ∃ tm err K,
    np_take (time star) m = Ok tm
    ∧ np_take (fraw_err star) m = Ok err
    ∧ cho_factor K = Ok C
    ∧ let K0 := GetCovariance (kernel star) (kernel_params star) tm err in
      if joint_fit then
        np_take (fraw star) m = Ok fl
        ∧ (square n K0 →
           (∀ k, (k < pld_order star)%nat → length (design star k m) = n) →
           square n K
           ∧ (∀ k, (k < pld_order star)%nat → ∃ l, lam_at star chunk k = Ok l)
           ∧ ∀ i j k0, entry K0 i j = Some k0 →
               entry K i j
               = Some (nadd k0 (joint_sum (lam_val star chunk)
                                          (λ k, design star k m) (Fin 0)
                                          0 (pld_order star) i j)))
      else
        np_take (flux star) m = Ok fl ∧ K = K0.
Proof.
  intros H m n. unfold GetChunkData in H. fold m in H.
  apply bind_Ok in H as ([K fl'] & Hcov & H).
  apply bind_Ok in H as (C' & HC & H).
  apply bind_Ok in H as (obs & Hobs & H).
  apply bind_Ok in H as (st & Hst & H).
  injection H as <- <- <- <-.
  unfold chunk_covariance in Hcov.
  apply bind_Ok in Hcov as (tm & Htm & Hcov).
  apply bind_Ok in Hcov as (err & Herr & Hcov).
  exists tm, err, K. repeat (split; [done|]).
  destruct joint_fit.
  - apply bind_Ok in Hcov as (A & HA & Hcov).
    apply bind_Ok in Hcov as (K' & HK & Hcov).
    apply bind_Ok in Hcov as (fl0 & Hfl & Hcov).
    injection Hcov as <- <-. split; [done|].
    intros HK0 HX.
    destruct (joint_loop star chunk m n (pld_order star) 0%nat _ A
                (np_zeros_square n)) as (HsqA & Hlams & Hsum); [|exact HA|].
    { intros k Hk. apply HX. lia. }
    destruct (mat_iadd_square n _ A HK0 HsqA) as (K'' & HK'' & Hsq & Hent).
    fold n in HK. rewrite HK in HK''. injection HK'' as <-.
    split; [done|]. split.
    + intros k Hk. apply Hlams. lia.
    + intros i j k0 Hk0. apply Hent; [done|].
      destruct (entry_lt _ _ _ _ _ HK0 Hk0) as [Hi Hj].
      apply Hsum. by apply np_zeros_entry.
  - apply bind_Ok in Hcov as (fl0 & Hfl & Hcov).
    by injection Hcov as <- <-.
Qed.

End Covariance.

Module CovarianceFacts.
Import Instance Inputs.

Lemma chunk_star1 :
  GetChunkData star1 0 true
  = Ok (map of_Z [0; 1; 2; 3; 4; 5], [3; 4]%nat, map of_Z [0; 0; 3; 0],
        map of_Z [1; 1; 19; 1]).
Proof. vm_compute. reflexivity. Qed.

Lemma GetChunkData_covariance_witness :
  GetChunkData star1 0 true
  = Ok (map of_Z [0; 1; 2; 3; 4; 5], [3; 4]%nat, map of_Z [0; 0; 3; 0],
        map of_Z [1; 1; 19; 1])
  ∧ ∃ K, cho_factor K = Ok (map of_Z [1; 1; 19; 1])
         ∧ entry K 2 2 = Some (Fin 19)
         ∧ entry K 0 2 = Some (Fin 0).
Proof.
  split; [exact chunk_star1|].
  destruct (GetChunkData_covariance Factor get_masked_chunk design GetCovariance
              cho_factor star1 0 true _ _ _ _ chunk_star1)
    as (tm & err & K & Htm & Herr & HC & _ & Hjoint).
  injection Htm as <-. injection Herr as <-.
  destruct Hjoint as (_ & _ & Hent).
  - split; [reflexivity|]. repeat constructor.
  - intros [|k] Hk; [reflexivity|]. simpl in Hk. lia.
  - exists K. split; [exact HC|]. split.
    + rewrite (Hent 2%nat 2%nat (Fin 1)); reflexivity.
    + rewrite (Hent 0%nat 2%nat (Fin 0)); reflexivity.
Defined.

End CovarianceFacts.

(** ** Arithmetic on finite values *)

Lemma Qltb_lt (a b : Q) : Qltb a b = true ↔ (a < b)%Q.
Proof.
  unfold Qltb. rewrite negb_true_iff. split.
  - intros H. apply Qnot_le_lt. intros Hle.
    apply Qle_bool_iff in Hle. congruence.
  - intros H. destruct (Qle_bool b a) eqn:E; [|done].
    apply Qle_bool_iff in E. apply Qle_not_lt in E. contradiction.
Qed.


Lemma Qis0_true (a : Q) : Qis0 a = true ↔ (a == 0)%Q.
Proof. unfold Qis0. apply Qeq_bool_iff. Qed.

Lemma Qis0_false (a : Q) : Qis0 a = false ↔ ¬ (a == 0)%Q.
Proof.
  unfold Qis0. split.
  - intros H E. apply Qeq_bool_iff in E. congruence.
  - intros H. destruct (Qeq_bool a 0) eqn:E; [|done].
    apply Qeq_bool_iff in E. contradiction.
Qed.

Lemma nadd_fin a b : nadd (Fin a) (Fin b) = Fin (Qred (a + b)).
Proof. reflexivity. Qed.
Lemma nsub_fin a b : nsub (Fin a) (Fin b) = Fin (Qred (a - b)).
Proof. reflexivity. Qed.
Lemma nmul_fin a b : nmul (Fin a) (Fin b) = Fin (Qred (a * b)).
Proof. reflexivity. Qed.
Lemma nabs_fin a : nabs (Fin a) = Fin (Qred (Qabs a)).
Proof. reflexivity. Qed.
Lemma nltb_fin a b : nltb (Fin a) (Fin b) = Qltb a b.
Proof. reflexivity. Qed.
Lemma ndiv_fin a b :
  ¬ (b == 0)%Q → ndiv (Fin a) (Fin b) = Fin (Qred (a / b)).
Proof. intros H. unfold ndiv. by rewrite (proj2 (Qis0_false b) H). Qed.




Lemma Qtrunc_nonneg (q : Q) : (0 <= q)%Q → Qtrunc q = Qfloor q.
Proof.
  intros H. unfold Qtrunc. by rewrite (proj2 (Qle_bool_iff 0 q) H).
Qed.


#[global] Instance Qtrunc_comp : Proper (Qeq ==> eq) Qtrunc.
Proof.
  intros x y E. unfold Qtrunc.
  assert (Hb : Qle_bool 0 x = Qle_bool 0 y).
  { apply eq_true_iff_eq. rewrite !Qle_bool_iff. by rewrite E. }
  rewrite Hb. destruct (Qle_bool 0 y); by rewrite E.
Qed.

(** ** Folding *)

Section FoldClaims.

Lemma fold_times_fin time a b P phi :
  py_index time 0 = Ok (Fin a) →
  py_index time (-1) = Ok (Fin b) →
  ¬ (P == 0)%Q →
  ∃ times,
    Fold.fold_times time (Fin P) (Fin phi) = Ok times
    ∧ length times = Z.to_nat (fold_count a b P phi)
    ∧ ∀ (i : nat) t, times !! i = Some t →
        ∃ q, t = Fin q ∧ (q == a + phi * P + inject_Z (Z.of_nat i) * P)%Q.
Proof.
  intros Ha Hb HP. unfold Fold.fold_times. rewrite Ha, Hb. simpl.
  rewrite nmul_fin, nadd_fin, nsub_fin, ndiv_fin by done.
  unfold py_int. simpl. unfold of_Z. rewrite nmul_fin, nadd_fin.
  unfold np_arange. rewrite nsub_fin, ndiv_fin by done.
  set (t0 := Qred (a + Qred (phi * P))).
  assert (Ht0 : (t0 == a + phi * P)%Q).
  { unfold t0. by rewrite !Qred_correct. }
  set (k := Qtrunc (Qred (Qred (b - t0) / P))).
  assert (Hk : k = fold_count a b P phi).
  { unfold k, fold_count. by rewrite !Qred_correct, Ht0. }
  assert (Hc : Qceiling (Qred (Qred (Qred (t0 + Qred (P * inject_Z k)) - t0) / P)) = k).
  { rewrite <- (Qceiling_Z k) at 2. apply Qceiling_comp.
    rewrite !Qred_correct. field. done. }
  rewrite Hc. eexists. split; [done|]. split.
  - by rewrite length_map, length_seq, Hk.
  - intros i t. rewrite list_lookup_fmap.
    destruct (seq 0 (Z.to_nat k) !! i) as [i'|] eqn:Hi; simpl; [|done].
    apply lookup_seq in Hi as [-> _]. simpl.
    intros [= <-]. unfold of_Z. rewrite nmul_fin, nadd_fin.
    eexists. split; [done|]. rewrite !Qred_correct, Ht0. ring.
Qed.


Lemma py_index_in_range {A : Type} (l : list A) (i : Z) :
  0 <= i < Z.of_nat (length l) → ∃ v, py_index l i = Ok v.
Proof.
  intros Hi. destruct (py_index_nat_lt l (Z.to_nat i)) as (v & Hv & _); [lia|].
  exists v. by rewrite Z2Nat.id in Hv by lia.
Qed.

Lemma mapM_total {A B : Type} (f : A → result B) (l : list A) :
  Forall (λ x, ∃ y, f x = Ok y) l →
  ∃ ys, mapM f l = Ok ys ∧ length ys = length l.
Proof.
  induction 1 as [|x l [y Hy] _ (ys & IH & Hlen)]; simpl.
  - by exists [].
  - rewrite Hy, IH. simpl. exists (y :: ys). simpl. by rewrite Hlen.
Qed.





Lemma mapM_Ok_Forall {A B : Type} (f : A → result B) (l : list A) (ys : list B) :
  mapM f l = Ok ys → Forall (λ y, ∃ x, x ∈ l ∧ f x = Ok y) ys.
Proof.
  revert ys. induction l as [|x l IH]; intros ys; simpl.
  - intros [= <-]. constructor.
  - intros H. apply bind_Ok in H as (y & Hy & H).
    apply bind_Ok in H as (ys' & Hys & H). injection H as <-.
    constructor.
    + exists x. split; [left|done].
    + eapply Forall_impl; [by apply IH|].
      intros y' (x' & Hx' & Hfx). exists x'. split; [by right|done].
Qed.



(** the fold time number [fold_count], the last one that is not beyond
    [time[-1]], is never generated: every generated time lies below it,
    and it lies strictly below [time[-1]] unless the span from [t0] is a
    whole number of periods *)
Lemma fold_times_stop_short (time : list num) a b P phi :
  py_index time 0 = Ok (Fin a) →
  py_index time (-1) = Ok (Fin b) →
  (0 < P)%Q → (a + phi * P <= b)%Q →
  let k := fold_count a b P phi in
  ∃ times,
    Fold.fold_times time (Fin P) (Fin phi) = Ok times
    ∧ (a + phi * P + inject_Z k * P <= b)%Q
    ∧ (¬ ((b - (a + phi * P)) / P == inject_Z k)%Q →
       (a + phi * P + inject_Z k * P < b)%Q)
    ∧ ∀ t q, t ∈ times → t = Fin q → (q < a + phi * P + inject_Z k * P)%Q.
Proof.
  intros Ha Hb HP Ht0 k.
  destruct (fold_times_fin time a b P phi Ha Hb) as (times & Ht & Hlen & Hval);
    [lra|].
  exists times. split; [done|].
  set (x := ((b - (a + phi * P)) / P)%Q).
  assert (Hx : (0 <= x)%Q).
  { unfold x. apply Qle_shift_div_l; [done|]. lra. }
  assert (Hk : k = Qfloor x).
  { unfold k, fold_count. by apply Qtrunc_nonneg. }
  assert (Hkx : (inject_Z k <= x)%Q).
  { rewrite Hk. apply Qfloor_le. }
  assert (E : (x * P == b - (a + phi * P))%Q) by (unfold x; field; lra).
  split; [|split].
  - apply (Qmult_le_r _ _ P HP) in Hkx. rewrite E in Hkx. lra.
  - intros Hne. assert (Hlt : (inject_Z k < x)%Q).
    { apply Qle_lteq in Hkx as [?|Heq]; [done|]. by rewrite Heq in Hne. }
    apply (Qmult_lt_r _ _ P HP) in Hlt. rewrite E in Hlt. lra.
  - intros t q Hin ->. apply list_elem_of_lookup in Hin as [i Hi].
    destruct (Hval i _ Hi) as (q' & [= <-] & Hq).
    apply lookup_lt_Some in Hi. rewrite Hlen in Hi. fold k in Hi.
    assert (Hik : (inject_Z (Z.of_nat i) < inject_Z k)%Q).
    { rewrite <- Zlt_Qlt. lia. }
    rewrite Hq. apply (Qmult_lt_r _ _ P HP) in Hik. lra.
Qed.

End FoldClaims.

Module FoldFacts.
Import Inputs.

(** C2 on [time10] with period 3 and phase 0: the fold times below
    [time[-1] = 10] are 0, 3, 6 and 9; [np.arange(t0, tf, period)] stops
    before [tf = 9], and the cell sums the values at 0, 3 and 6 only. *)
Lemma Heatmap_drops_last_fold_time :
  Fold.fold_times time10 (of_Z 3) (of_Z 0) = Ok (map of_Z [0; 3; 6])
  ∧ nltb (of_Z 9) (of_Z 10) = true
  ∧ Fold.Heatmap time10 dchisq10 [of_Z 3] [of_Z 0] = Ok [[of_Z (1 + 8 + 64)]].
Proof. repeat split; vm_compute; reflexivity. Qed.



End FoldFacts.

(** ** The uniform grid *)

Lemma remove_at_app {A : Type} (ks : list nat) (l1 l2 : list A) :
  ∀ k, remove_at ks k (l1 ++ l2)
       = remove_at ks k l1 ++ remove_at ks (k + length l1) l2.
Proof.
  induction l1 as [|x l1 IH]; intros k; simpl.
  - by rewrite Nat.add_0_r.
  - rewrite IH. replace (S k + length l1)%nat with (k + S (length l1))%nat by lia.
    by destruct (bool_decide (k ∈ ks)).
Qed.

Lemma remove_at_ext {A : Type} (ks ks' : list nat) (l : list A) :
  ∀ k, (∀ pos, (k ≤ pos < k + length l)%nat → pos ∈ ks ↔ pos ∈ ks') →
       remove_at ks k l = remove_at ks' k l.
Proof.
  induction l as [|x l IH]; intros k H; simpl; [done|].
  rewrite (IH (S k)) by (intros pos Hpos; apply H; simpl; lia).
  rewrite (bool_decide_ext (k ∈ ks) (k ∈ ks')); [done|].
  apply H. simpl. lia.
Qed.


Section GridLoop.

Variable obs : list num.
Variable tol : num.
Variable slots : list num.

Abbreviation inv := (grid_inv obs tol slots).

Lemma grid_loop_inv :
  ∀ tunif i st,
    drop i slots = tunif → (i ≤ length slots)%nat →
    inv i st → (g_j st < length obs)%nat →
    ∃ st' p,
      grid_loop obs tol i tunif st = Ok st'
      ∧ (i ≤ p ≤ length slots)%nat
      ∧ inv p st'
      ∧ ((g_j st' < length obs)%nat → p = length slots).
Proof.
  induction tunif as [|t rest IH]; intros i st Hdrop Hi Hinv Hj;
    cbn [grid_loop].
  - exists st, i. split; [done|].
    assert (i = length slots).
    { apply (f_equal length) in Hdrop. rewrite length_drop in Hdrop.
      simpl in Hdrop. lia. }
    subst i. split; [lia|]. by split.
  - assert (Hit : slots !! i = Some t).
    { rewrite <- (Nat.add_0_r i), <- lookup_drop, Hdrop. done. }
    assert (Hrest : drop (S i) slots = rest).
    { rewrite <- Nat.add_1_r, <- drop_drop, Hdrop. done. }
    assert (HSi : (S i ≤ length slots)%nat).
    { apply lookup_lt_Some in Hit. lia. }
    destruct Hinv as [Hlen Hr Hgaps Hjle Hng Hcl Hlast].
    assert (Hti : g_time st !! i = Some t).
    { rewrite <- (Nat.add_0_r i), <- lookup_drop, Hr, lookup_drop.
      by rewrite Nat.add_0_r. }
    assert (Hrest' : drop (S i) (g_time st) = drop (S i) slots).
    { by rewrite <- Nat.add_1_r, <- drop_drop, Hr, drop_drop. }
    assert (Hlt : (i < length (g_time st))%nat) by lia.
    assert (Hlen_take : length (take i (g_time st)) = i).
    { rewrite length_take. lia. }
    destruct (py_index_nat_lt obs (g_j st) Hj) as (o & -> & Ho).
    cbn [mbind result_bind g_j].
    destruct (nltb (nabs (nsub o t)) tol) eqn:Hmatch.
    + set (st1 := {| g_time := <[i := o]> (g_time st); g_gaps := g_gaps st;
                     g_j := S (g_j st) |}).
      assert (Hinv1 : inv (S i) st1).
      { split; simpl.
        - by rewrite length_insert.
        - by rewrite drop_insert_lt by lia.
        - eapply Forall_impl; [exact Hgaps|]. simpl. intros g ?. lia.
        - lia.
        - rewrite (take_S_r _ _ o) by (by apply list_lookup_insert_eq).
          rewrite take_insert_ge by lia.
          rewrite remove_at_app, Hng, Hlen_take. simpl.
          rewrite bool_decide_eq_false_2.
          + by rewrite (take_S_r _ _ o).
          + intros Hin. apply (proj1 (Forall_forall _ _) Hgaps) in Hin. lia.
        - intros k Hk. destruct (decide (k = i)) as [->|Hne].
          + exists o, t. rewrite list_lookup_insert_eq by lia. by repeat split; [|right].
          + rewrite list_lookup_insert_ne by done. apply Hcl. lia.
        - intros Hend _. exists i, o, t. repeat split; [|done..].
          rewrite <- Hend. simpl. rewrite Nat.sub_0_r. exact Ho. }
      destruct (Nat.eqb_spec (S (g_j st)) (length obs)) as [Hend|Hmore].
      * exists st1, (S i). split; [done|]. split; [lia|]. split; [done|].
        subst st1. simpl. lia.
      * destruct (IH (S i) st1 Hrest HSi Hinv1) as (st' & p & Hrun & Hp & Hinv' & Hfull).
        { simpl in *. lia. }
        exists st', p. split; [done|]. split; [lia|]. by split.
    + set (st1 := {| g_time := g_time st; g_gaps := g_gaps st ++ [i];
                     g_j := g_j st |}).
      assert (Hinv1 : inv (S i) st1).
      { split; simpl.
        - done.
        - done.
        - apply Forall_app. split.
          + eapply Forall_impl; [exact Hgaps|]. simpl. intros g ?. lia.
          + repeat constructor.
        - done.
        - rewrite (take_S_r _ _ t) by done.
          rewrite remove_at_app, Hlen_take. simpl.
          rewrite bool_decide_eq_true_2 by (apply elem_of_app; right; by left).
          rewrite app_nil_r, <- Hng. apply remove_at_ext.
          intros pos Hpos. rewrite elem_of_app, list_elem_of_singleton.
          rewrite Hlen_take in Hpos. split; [|by left].
          intros [?|?]; [done|lia].
        - intros k Hk. destruct (decide (k = i)) as [->|Hne].
          + exists t, t. split; [done|]. split; [done|]. by left.
          + apply Hcl. lia.
        - intros Hend. lia. }
      destruct (IH (S i) st1 Hrest HSi Hinv1) as (st' & p & Hrun & Hp & Hinv' & Hfull).
      { done. }
      exists st', p. split; [done|]. split; [lia|]. by split.
Qed.

End GridLoop.

(** *** Finite arrays, their differences and medians *)

Lemma np_diff_finite (l : list num) :
  Forall finite l → Forall finite (np_diff l).
Proof.
  induction 1 as [|x l [a ->] Hl IH]; simpl; [constructor|].
  destruct Hl as [|y l [b ->] Hl]; [constructor|].
  constructor; [|exact IH]. rewrite nsub_fin. by eexists.
Qed.

Lemma finite_not_nan (l : list num) :
  Forall finite l → Forall (λ x, isnan x = false) l.
Proof. intros H. eapply Forall_impl; [exact H|]. by intros x [q ->]. Qed.

(** without [nan], [np.nanmedian] is [np.median] *)
Lemma np_nanmedian_finite (l : list num) :
  Forall finite l → np_nanmedian l = np_median l.
Proof.
  intros H%finite_not_nan. unfold np_nanmedian, np_median.
  assert (Hex : existsb isnan l = false).
  { induction H as [|x l Hx _ IH]; simpl; [done|]. by rewrite Hx, IH. }
  assert (Hfil : filter (λ x, isnan x = false) l = l).
  { clear Hex. induction H as [|x l Hx _ IH]; [done|].
    rewrite filter_cons. destruct (decide (isnan x = false)); [|done].
    by rewrite IH. }
  by rewrite Hex, Hfil.
Qed.

(** *** [np.arange] on finite arguments *)

Lemma lt_Qceiling (k : Z) (x : Q) : k < Qceiling x → (inject_Z k < x)%Q.
Proof.
  intros Hk. pose proof (Qceiling_lt x) as Hc.
  assert (Hle : (inject_Z k <= inject_Z (Qceiling x - 1))%Q).
  { rewrite <- Zle_Qle. lia. }
  lra.
Qed.

Lemma np_arange_fin (a s d : Q) :
  ¬ (d == 0)%Q →
  ∃ l,
    np_arange (Fin a) (Fin s) (Fin d) = Ok l
    ∧ length l = Z.to_nat (Qceiling ((s - a) / d))
    ∧ ∀ (k : nat) u, l !! k = Some u →
        ∃ q, u = Fin q ∧ (q == a + inject_Z (Z.of_nat k) * d)%Q
             ∧ ((0 < d)%Q → (q < s)%Q).
Proof.
  intros Hd. unfold np_arange. rewrite nsub_fin, ndiv_fin by done.
  assert (Hc : Qceiling (Qred (Qred (s - a) / d)) = Qceiling ((s - a) / d)).
  { apply Qceiling_comp. by rewrite !Qred_correct. }
  rewrite Hc. eexists. split; [done|]. split.
  - by rewrite length_map, length_seq.
  - intros k u. rewrite list_lookup_fmap.
    destruct (seq 0 _ !! k) as [k'|] eqn:Hk; simpl; [|done].
    apply lookup_seq in Hk as [-> Hk]. simpl. intros [= <-].
    unfold of_Z. rewrite nmul_fin, nadd_fin. eexists. split; [done|].
    assert (Hq : (Qred (a + Qred (inject_Z (Z.of_nat k) * d))
                  == a + inject_Z (Z.of_nat k) * d)%Q).
    { by rewrite !Qred_correct. }
    split; [done|]. intros Hpos. rewrite Hq.
    assert (Hkx : (inject_Z (Z.of_nat k) < (s - a) / d)%Q).
    { apply lt_Qceiling. lia. }
    apply (Qmult_lt_r _ _ d Hpos) in Hkx.
    assert (E : ((s - a) / d * d == s - a)%Q) by (field; lra).
    rewrite E in Hkx. lra.
Qed.

(** *** Closeness of finite values *)

Lemma close_fin (tol u : Q) (x : num) :
  close (Fin tol) x (Fin u) → ∃ q, x = Fin q ∧ (Qabs (q - u) < tol)%Q.
Proof.
  unfold close. destruct x as [q| | |]; try discriminate.
  rewrite nsub_fin, nabs_fin, nltb_fin. intros H%Qltb_lt.
  exists q. split; [done|]. by rewrite !Qred_correct in H.
Qed.

Lemma close_negative (tol : Q) (x u : num) :
  (tol <= 0)%Q → ¬ close (Fin tol) x u.
Proof.
  intros Htol. unfold close.
  destruct (nsub x u) as [q| | |]; try discriminate.
  rewrite nabs_fin, nltb_fin. intros H%Qltb_lt.
  rewrite Qred_correct in H. pose proof (Qabs_nonneg q). lra.
Qed.

(** *** The grid of a finite chunk *)

Lemma py_index_last {A : Type} (l : list A) (x : A) :
  l !! (length l - 1)%nat = Some x → py_index l (-1) = Ok x.
Proof.
  intros H. pose proof (lookup_lt_Some _ _ _ H) as Hlt.
  unfold py_index. simpl.
  destruct (Z.ltb_spec (-1 + Z.of_nat (length l)) 0) as [?|_]; [lia|].
  destruct (Z.leb_spec (Z.of_nat (length l)) (-1 + Z.of_nat (length l)))
    as [?|_]; [lia|]. simpl.
  replace (Z.to_nat (-1 + Z.of_nat (length l))) with (length l - 1)%nat by lia.
  by rewrite H.
Qed.

Lemma np_median_nonempty (l : list num) (q : Q) :
  np_median l = Fin q → l ≠ [].
Proof. intros H ->. discriminate H. Qed.

(** a chunk with a finite median spacing has a first and a last time *)
Lemma finite_ends (obs : list num) (dt : Q) :
  Forall finite obs → np_median (np_diff obs) = Fin dt →
  ∃ a b, obs !! 0%nat = Some (Fin a)
         ∧ obs !! (length obs - 1)%nat = Some (Fin b)
         ∧ (2 ≤ length obs)%nat.
Proof.
  intros Hfin Hmed. apply np_median_nonempty in Hmed.
  destruct obs as [|x [|y obs]]; [done..|].
  assert (Hlast : is_Some ((x :: y :: obs) !! (length (x :: y :: obs) - 1)%nat)).
  { apply lookup_lt_is_Some. simpl. lia. }
  destruct Hlast as [z Hz].
  pose proof (Forall_lookup_1 _ _ _ _ Hfin Hz) as [b ->].
  inversion Hfin as [|? ? [a ->] _]; subst.
  exists a, b. split; [done|]. split; [done|]. simpl. lia.
Qed.

(** the run of [uniform_grid] on a finite chunk: it returns, and the
    loop invariant holds at the slot where the loop stopped *)
Lemma uniform_grid_inv (obs : list num) (dt a b : Q) :
  Forall finite obs → np_median (np_diff obs) = Fin dt → ¬ (dt == 0)%Q →
  obs !! 0%nat = Some (Fin a) →
  obs !! (length obs - 1)%nat = Some (Fin b) →
  let tol := Qred (dt / 5) in
  ∃ tunif st p,
    np_arange (Fin a) (Fin (Qred (b + tol))) (Fin dt) = Ok tunif
    ∧ uniform_grid obs = Ok st
    ∧ (p ≤ length tunif)%nat
    ∧ grid_inv obs (Fin tol) tunif p st
    ∧ ((g_j st < length obs)%nat → p = length tunif).
Proof.
  intros Hfin Hmed Hdt Ha Hb tol.
  destruct (np_arange_fin a (Qred (b + tol)) dt Hdt) as (tunif & Htunif & _).
  unfold uniform_grid.
  rewrite np_nanmedian_finite by (by apply np_diff_finite).
  rewrite Hmed.
  change (py_index obs 0) with (py_index obs (Z.of_nat 0)).
  rewrite (proj2 (py_index_nat obs 0 (Fin a)) Ha).
  rewrite (py_index_last obs (Fin b) Hb). simpl.
  rewrite ndiv_fin by (by intros ?). rewrite nadd_fin.
  fold tol. rewrite Htunif. simpl.
  destruct (grid_loop_inv obs (Fin tol) tunif tunif 0
              {| g_time := tunif; g_gaps := []; g_j := 0 |})
    as (st & p & Hrun & Hp & Hinv & Hfull).
  - done.
  - lia.
  - split; simpl; try done.
    + lia.
    + intros k Hk. lia.
    + intros Hlen Hpos. lia.
  - simpl. apply lookup_lt_Some in Ha. lia.
  - exists tunif, st, p. split; [done|]. split; [done|]. split; [lia|]. by split.
Qed.

Lemma Qdiv5 (x : Q) : (x / 5 == x * (1 # 5))%Q.
Proof. field. Qed.

Lemma inject_Z_S (k : nat) :
  (inject_Z (Z.of_nat (S k)) == inject_Z (Z.of_nat k) + 1)%Q.
Proof.
  rewrite Nat2Z.inj_succ. unfold Z.succ. by rewrite inject_Z_plus.
Qed.

(** with a positive spacing the loop visits every slot: a slot after the
    one that matched the last observed time would lie beyond the end of
    the grid *)
Lemma uniform_grid_pos (obs : list num) (dt a b : Q) :
  Forall finite obs → np_median (np_diff obs) = Fin dt → (0 < dt)%Q →
  obs !! 0%nat = Some (Fin a) →
  obs !! (length obs - 1)%nat = Some (Fin b) →
  ∃ tunif st,
    uniform_grid obs = Ok st
    ∧ grid_inv obs (Fin (Qred (dt / 5))) tunif (length tunif) st
    ∧ ∀ (k : nat) u, tunif !! k = Some u →
        ∃ q, u = Fin q ∧ (q == a + inject_Z (Z.of_nat k) * dt)%Q.
Proof.
  intros Hfin Hmed Hdt Ha Hb.
  assert (Hnz : ¬ (dt == 0)%Q) by lra.
  destruct (uniform_grid_inv obs dt a b Hfin Hmed Hnz Ha Hb)
    as (tunif & st & p & Htunif & Hrun & Hp & Hinv & Hfull).
  destruct (np_arange_fin a (Qred (b + Qred (dt / 5))) dt Hnz)
    as (tunif' & Htunif' & _ & Hval).
  rewrite Htunif in Htunif'. injection Htunif' as <-.
  exists tunif, st. split; [done|].
  assert (Hpn : p = length tunif).
  { destruct (decide (g_j st < length obs)%nat) as [Hlt|Hge]; [by apply Hfull|].
    pose proof (inv_j _ _ _ _ _ Hinv) as Hjle.
    destruct (inv_last _ _ _ _ _ Hinv) as (i' & o & u & -> & Ho & Hu & Hclose);
      [lia | apply lookup_lt_Some in Ha; lia |].
    rewrite Hb in Ho. injection Ho as <-.
    destruct (Hval i' u Hu) as (q & -> & Hq & _).
    apply close_fin in Hclose as (b' & [= <-] & Hclose).
    apply Qabs_Qlt_condition in Hclose.
    rewrite Qred_correct, Qdiv5 in Hclose.
    destruct (decide (S i' < length tunif)%nat) as [Hmore|?]; [|lia].
    destruct (lookup_lt_is_Some_2 tunif (S i') Hmore) as [u' Hu'].
    destruct (Hval (S i') u' Hu') as (q' & -> & Hq' & Hstop).
    specialize (Hstop Hdt). rewrite !Qred_correct, Qdiv5 in Hstop.
    rewrite inject_Z_S in Hq'. exfalso. lra. }
  subst p. split; [done|].
  intros k u Hu. destruct (Hval k u Hu) as (q & -> & Hq & _). by exists q.
Qed.


(** *** Observed times that sit on the grid *)








(** C4, as the code has it: on a chunk of finite times whose median
    spacing is not zero the construction raises nothing, also when the
    cursor has not gone through all the observed times: it returns the
    grid and its gaps, and the slots that are not gaps hold the observed
    times the cursor went through, each once and in order. *)
Theorem uniform_grid_returns (obs : list num) (dt : Q) :
  Forall finite obs → np_median (np_diff obs) = Fin dt → ¬ (dt == 0)%Q →
  ∃ st,
    uniform_grid obs = Ok st
    ∧ (g_j st ≤ length obs)%nat
    ∧ remove_at (g_gaps st) 0 (g_time st) = take (g_j st) obs.
Proof.
  intros Hfin Hmed Hdt.
  destruct (finite_ends obs dt Hfin Hmed) as (a & b & Ha & Hb & Hlen2).
  destruct (Qlt_le_dec 0 dt) as [Hpos|Hneg].
  - destruct (uniform_grid_pos obs dt a b Hfin Hmed Hpos Ha Hb)
      as (tunif & st & Hrun & [Hlen _ _ Hjle Hng _ _] & _).
    exists st. split; [done|]. split; [done|].
    by rewrite take_ge in Hng by lia.
  - destruct (uniform_grid_inv obs dt a b Hfin Hmed Hdt Ha Hb)
      as (tunif & st & p & _ & Hrun & Hp & [Hlen _ _ Hjle Hng _ Hlast] & Hfull).
    exists st. split; [done|]. split; [done|].
    assert (Hlt : (g_j st < length obs)%nat).
    { destruct (decide (g_j st < length obs)%nat) as [?|Hge]; [done|].
      destruct Hlast as (i' & o & u & _ & _ & _ & Hclose); [lia..|].
      exfalso. revert Hclose. apply close_negative.
      rewrite Qred_correct, Qdiv5. lra. }
    rewrite (Hfull Hlt) in Hng. by rewrite take_ge in Hng by lia.
Qed.

Module GridFacts.
Import Instance Inputs.



(** C4 fails on [star_off]: the cursor stops after two of the four
    observed times and [GetChunkData] returns as if nothing had
    happened. *)
Lemma GetChunkData_silent :
  uniform_grid obs_off
  = Ok {| g_time := map of_Z [0; 1; 2; 3]; g_gaps := [2; 3]%nat; g_j := 2 |}
  ∧ (2 < length obs_off)%nat
  ∧ GetChunkData star_off 0 false
    = Ok (map of_Z [0; 1; 2; 3], [2; 3]%nat, map of_Z [1; 1; 1; 1],
          map of_Z [1; 1; 1; 1]).
Proof. repeat split; try (vm_compute; reflexivity). simpl. lia. Qed.


Lemma obs_off_finite : Forall finite obs_off.
Proof. repeat constructor; by eexists. Qed.



Lemma uniform_grid_returns_witness :
  Forall finite obs_off
  ∧ np_median (np_diff obs_off) = Fin 1
  ∧ ¬ (1 == 0)%Q
  ∧ ∃ st, uniform_grid obs_off = Ok st
          ∧ remove_at (g_gaps st) 0 (g_time st) = take (g_j st) obs_off.
Proof.
  split; [exact obs_off_finite|]. split; [reflexivity|]. split; [discriminate|].
  destruct (uniform_grid_returns obs_off 1 obs_off_finite eq_refl)
    as (st & Hrun & _ & Hng); [discriminate|].
  by exists st.
Defined.

End GridFacts.

(** ** More on folding *)

Lemma ndiv_zero_not_finite (x : num) (q : Q) :
  (q == 0)%Q → isfinite (ndiv x (Fin q)) = false.
Proof.
  intros Hq%Qis0_true. unfold ndiv, Qsign.
  destruct x as [a| | |]; rewrite ?Hq; try done.
  by destruct (Qis0 a); [|destruct (Qltb 0 a)].
Qed.

Lemma py_int_not_finite (x : num) :
  isfinite x = false → py_int x = Err ConversionError.
Proof. by destruct x. Qed.

Lemma py_index_nonempty {A : Type} (l : list A) :
  l ≠ [] → (∃ x, py_index l 0 = Ok x) ∧ (∃ y, py_index l (-1) = Ok y).
Proof.
  intros Hne. assert (0 < length l)%nat by (destruct l; [done|simpl; lia]).
  split.
  - apply py_index_in_range. lia.
  - destruct (lookup_lt_is_Some_2 l (length l - 1)) as [y Hy]; [lia|].
    exists y. by apply py_index_last.
Qed.

Lemma nadd_nan_l (x : num) : nadd NaN x = NaN.
Proof. by destruct x. Qed.

Lemma nadd_nan_r (x : num) : nadd x NaN = NaN.
Proof. by destruct x. Qed.

Lemma accumulate_inv time dchisq dt z t z' :
  Fold.accumulate time dchisq dt z t = Ok z' →
  ∃ t0 ind v,
    py_index time 0 = Ok t0
    ∧ py_round (ndiv (nsub t t0) dt) = Ok ind
    ∧ py_index dchisq ind = Ok v
    ∧ z' = nadd z v.
Proof.
  unfold Fold.accumulate. intros H.
  apply bind_Ok in H as (t0 & Ht0 & H).
  apply bind_Ok in H as (ind & Hind & H).
  apply bind_Ok in H as (v & Hv & H).
  injection H as <-. by exists t0, ind, v.
Qed.

(** once the sum is [nan] it stays [nan] *)
Lemma accumulate_nan_stays time dchisq dt times :
  ∀ z, foldM (Fold.accumulate time dchisq dt) NaN times = Ok z → z = NaN.
Proof.
  induction times as [|t times IH]; intros z; simpl.
  - by intros [= <-].
  - intros H. apply bind_Ok in H as (z' & Hz' & H).
    apply accumulate_inv in Hz' as (_ & _ & v & _ & _ & _ & ->).
    rewrite nadd_nan_l in H. by apply IH.
Qed.

(** X1: whatever the inputs, a heat map that is returned has one row per
    trial period and one column per trial phase. *)
Theorem Heatmap_shape (time dchisq periods phases : list num) z :
  Fold.Heatmap time dchisq periods phases = Ok z →
  length z = length periods ∧ Forall (λ row, length row = length phases) z.
Proof.
  unfold Fold.Heatmap. intros H. split.
  - by apply mapM_Ok_length in H.
  - apply mapM_Ok_Forall in H. eapply Forall_impl; [exact H|].
    intros row (p & _ & Hrow). by apply mapM_Ok_length in Hrow.
Qed.

(** X2: a trial period equal to zero makes [Heatmap] raise as soon as a
    phase is tried, whatever the non-empty time array holds: the number
    of folds [(time[-1] - t0) / period] is infinite or undefined and
    [int] refuses it. *)
Theorem Heatmap_zero_period (time dchisq periods phases : list num)
  (q : Q) (phase : num) :
  time ≠ [] → (q == 0)%Q →
  Fold.Heatmap time dchisq (Fin q :: periods) (phase :: phases)
  = Err ConversionError.
Proof.
  intros Hne Hq. unfold Fold.Heatmap. cbn [mapM].
  destruct (py_index_nonempty time Hne) as [[a Ha] [b Hb]].
  assert (Hcell : Fold.cell time dchisq (np_nanmedian (np_diff time)) (Fin q) phase
                  = Err ConversionError).
  { unfold Fold.cell, Fold.fold_times. rewrite Ha, Hb. simpl.
    rewrite py_int_not_finite; [done|]. by apply ndiv_zero_not_finite. }
  by rewrite Hcell.
Qed.

(** X3: the sum of a cell is poisoned by one undefined value: when a
    fold time of the trial lands on an index whose delta chi-square is
    [nan], the cell is [nan]. *)
Theorem Heatmap_cell_nan (time dchisq : list num) dt period phase
  times z t t0 ind :
  Fold.fold_times time period phase = Ok times →
  Fold.cell time dchisq dt period phase = Ok z →
  t ∈ times →
  py_index time 0 = Ok t0 →
  py_round (ndiv (nsub t t0) dt) = Ok ind →
  py_index dchisq ind = Ok NaN →
  z = NaN.
Proof.
  intros Ht Hcell Hin Ht0 Hind Hnan. unfold Fold.cell in Hcell.
  rewrite Ht in Hcell. simpl in Hcell.
  apply list_elem_of_split in Hin as (l1 & l2 & ->). clear Ht.
  revert Hcell. generalize (Fin 0). induction l1 as [|t1 l1 IH]; intros acc; simpl.
  - intros H. apply bind_Ok in H as (z' & Hz' & H).
    apply accumulate_inv in Hz' as (t0' & ind' & v & Ht0' & Hind' & Hv & ->).
    rewrite Ht0 in Ht0'. injection Ht0' as <-.
    rewrite Hind in Hind'. injection Hind' as <-.
    rewrite Hnan in Hv. injection Hv as <-.
    rewrite nadd_nan_r in H. by apply accumulate_nan_stays in H.
  - intros H. apply bind_Ok in H as (z' & _ & H). by apply (IH z').
Qed.

(** ** More on outlier masking *)

Lemma where_from_range (cond : num → bool) (l : list num) :
  ∀ i, Forall (λ k, i <= k < i + Z.of_nat (length l)) (where_from cond i l).
Proof.
  induction l as [|x l IH]; intros i; simpl; [constructor|].
  assert (Htl : Forall (λ k, i <= k < i + Z.of_nat (S (length l)))
                       (where_from cond (i + 1) l)).
  { eapply Forall_impl; [apply IH|]. simpl. intros k ?. lia. }
  destruct (cond x); [constructor; [lia|]|]; exact Htl.
Qed.

Lemma argmax_eq_from_range (x : num) (l : list num) :
  ∀ i k, argmax_eq_from x i l = Some k → i <= k < i + Z.of_nat (length l).
Proof.
  induction l as [|y l IH]; intros i k; simpl; [done|].
  destruct (neqb y x).
  - intros [= <-]. lia.
  - intros H%IH. lia.
Qed.

Lemma np_argmax_eq_range (l : list num) (x : num) :
  l ≠ [] → 0 <= np_argmax_eq l x < Z.of_nat (length l).
Proof.
  intros Hne. unfold np_argmax_eq.
  destruct (argmax_eq_from x 0 l) as [k|] eqn:Hk; simpl.
  - apply argmax_eq_from_range in Hk. lia.
  - destruct l; [done|simpl; lia].
Qed.

Lemma remove_at_nil_inv {A : Type} (ks : list nat) (l : list A) :
  ∀ i, remove_at ks i l ≠ [] → l ≠ [].
Proof. intros i H ->. by apply H. Qed.

Lemma py_index_Ok_nonempty {A : Type} (l : list A) (i : Z) (x : A) :
  py_index l i = Ok x → l ≠ [].
Proof. intros H ->. unfold py_index in H. simpl in H. by destruct i. Qed.

Lemma np_delete_Ok {A : Type} (l : list A) (idx : list Z) (l' : list A) :
  np_delete l idx = Ok l' → ∃ ks, l' = remove_at ks 0 l.
Proof.
  unfold np_delete. intros H. apply bind_Ok in H as (ks & _ & H).
  injection H as <-. by exists ks.
Qed.

Section MaskOutliersMore.

Variable SavGol : list num → list num.

Abbreviation mask_outliers := (MaskOutliers SavGol).

Lemma outlier_inds_range star t f cond inds :
  (∃ ks, t = remove_at ks 0 (time star)) →
  outlier_inds star t f cond = Ok inds →
  Forall (λ k, 0 <= k < Z.of_nat (length (time star))) inds.
Proof.
  intros [ks ->] H. unfold outlier_inds in H.
  apply mapM_Ok_Forall in H. eapply Forall_impl; [exact H|].
  intros k (i & _ & Hk). apply bind_Ok in Hk as (ti & Hti & Hk).
  injection Hk as <-. apply np_argmax_eq_range.
  apply py_index_Ok_nonempty in Hti. by apply remove_at_nil_inv in Hti.
Qed.

(** X5: every index [MaskOutliers] puts in the outlier mask is a
    position of the time array. *)
Theorem MaskOutliers_outmask_in_range star pos_tol neg_tol star' :
  MaskOutliers SavGol star pos_tol neg_tol = Ok star' →
  Forall (λ k, 0 <= k < Z.of_nat (length (time star))) (outmask star').
Proof.
  unfold MaskOutliers. intros H.
  apply bind_Ok in H as (t & Ht%np_delete_Ok & H).
  apply bind_Ok in H as (f0 & _ & H).
  apply bind_Ok in H as (pos_inds & Hpos & H).
  apply bind_Ok in H as (neg_inds & Hneg & H).
  injection H as <-. simpl. apply Forall_app. split.
  - by apply (outlier_inds_range star t _ _ _ Ht Hneg).
  - by apply (outlier_inds_range star t _ _ _ Ht Hpos).
Qed.

(** X6: masking is idempotent: a second call on the star a first call
    returns finds the same outliers and returns the same star. *)
Theorem MaskOutliers_idempotent star pos_tol neg_tol star' :
  MaskOutliers SavGol star pos_tol neg_tol = Ok star' →
  MaskOutliers SavGol star' pos_tol neg_tol = Ok star'.
Proof.
  intros H. assert (H' := H). unfold MaskOutliers in H'.
  apply bind_Ok in H' as (t & _ & H').
  apply bind_Ok in H' as (f0 & _ & H').
  apply bind_Ok in H' as (pos_inds & _ & H').
  apply bind_Ok in H' as (neg_inds & _ & H').
  assert (Hstar : star' = with_masks star (neg_inds ++ pos_inds) []).
  { by injection H' as <-. }
  rewrite Hstar at 1. rewrite MaskOutliers_with_masks. exact H.
Qed.

Lemma norm_index_valid (n : nat) (i : Z) :
  valid_index n i → ∃ k, norm_index n i = Ok k.
Proof.
  unfold valid_index, norm_index. intros Hi.
  destruct (Z.ltb_spec i 0).
  - destruct (Z.ltb_spec (i + Z.of_nat n) 0); [lia|].
    destruct (Z.leb_spec (Z.of_nat n) (i + Z.of_nat n)); [lia|]. by eexists.
  - destruct (Z.ltb_spec i 0); [lia|].
    destruct (Z.leb_spec (Z.of_nat n) i); [lia|]. by eexists.
Qed.

Lemma norm_index_invalid (n : nat) (i : Z) :
  ¬ valid_index n i → norm_index n i = Err IndexError.
Proof.
  unfold valid_index, norm_index. intros Hi.
  destruct (Z.ltb_spec i 0).
  - destruct (Z.ltb_spec (i + Z.of_nat n) 0); [done|].
    destruct (Z.leb_spec (Z.of_nat n) (i + Z.of_nat n)); [done|]. lia.
  - destruct (Z.ltb_spec i 0); [lia|].
    destruct (Z.leb_spec (Z.of_nat n) i); [done|]. lia.
Qed.

Lemma norm_index_Err (n : nat) (i : Z) (e : exn) :
  norm_index n i = Err e → e = IndexError.
Proof.
  unfold norm_index. destruct (_ || _); [|done]. by intros [= <-].
Qed.

Lemma mapM_norm_index_invalid (n : nat) (idx : list Z) :
  Exists (λ i, ¬ valid_index n i) idx →
  mapM (norm_index n) idx = Err IndexError.
Proof.
  induction 1 as [i idx Hi|i idx _ IH]; simpl.
  - by rewrite norm_index_invalid.
  - destruct (norm_index n i) as [k|e] eqn:Hk; simpl.
    + by rewrite IH.
    + by rewrite (norm_index_Err _ _ _ Hk).
Qed.

Lemma np_delete_valid {A : Type} (l : list A) (idx : list Z) :
  Forall (valid_index (length l)) idx →
  ∃ ks, np_delete l idx = Ok (remove_at ks 0 l)
        ∧ mapM (norm_index (length l)) idx = Ok ks.
Proof.
  intros H. unfold np_delete.
  destruct (mapM_total (norm_index (length l)) idx) as (ks & Hks & _).
  { eapply Forall_impl; [exact H|]. apply norm_index_valid. }
  exists ks. by rewrite Hks.
Qed.

Lemma outlier_inds_total star t f cond :
  length f = length t →
  ∃ inds, outlier_inds star t f cond = Ok inds.
Proof.
  intros Hlen. unfold outlier_inds.
  destruct (mapM_total
              (λ i, ti ← py_index t i; Ok (np_argmax_eq (time star) ti))
              (np_where cond f)) as (inds & Hinds & _); [|by exists inds].
  eapply Forall_impl; [apply where_from_range|].
  intros i Hi. simpl in Hi. rewrite Hlen in Hi.
  destruct (py_index_in_range t i) as [ti Hti]; [lia|].
  rewrite Hti. simpl. by eexists.
Qed.

(** X7: on a star with as many fluxes as times, whose nan and bad masks
    hold positions of these arrays, and with a smoothing filter that
    keeps the length of its input, [MaskOutliers] raises nothing. *)
Theorem MaskOutliers_total star pos_tol neg_tol :
  length (flux star) = length (time star) →
  Forall (valid_index (length (time star))) (nanmask star ++ badmask star) →
  (∀ f, length (SavGol f) = length f) →
  ∃ star', MaskOutliers SavGol star pos_tol neg_tol = Ok star'.
Proof.
  intros Hlen Hmask Hsg. unfold MaskOutliers.
  destruct (np_delete_valid (time star) _ Hmask) as (ks & -> & Hks).
  rewrite <- Hlen in Hmask.
  destruct (np_delete_valid (flux star) _ Hmask) as (ks' & -> & Hks').
  rewrite Hlen in Hks'. rewrite Hks in Hks'. injection Hks' as <-. simpl.
  assert (Hf : length (SavGol (remove_at ks 0 (flux star)))
               = length (remove_at ks 0 (time star))).
  { rewrite Hsg. by apply remove_at_length. }
  destruct (outlier_inds_total star _ _
              (λ x, ngtb x (nadd (np_nanmedian (SavGol (remove_at ks 0 (flux star))))
                 (nmul pos_tol (nmul (Fin (7413 # 5000))
                    (np_nanmedian (map (λ x0, nabs (nsub x0
                       (np_nanmedian (SavGol (remove_at ks 0 (flux star))))))
                       (SavGol (remove_at ks 0 (flux star))))))))) Hf)
    as [pos_inds ->]. simpl.
  destruct (outlier_inds_total star _ _
              (λ x, nltb x (nsub (np_nanmedian (SavGol (remove_at ks 0 (flux star))))
                 (nmul neg_tol (nmul (Fin (7413 # 5000))
                    (np_nanmedian (map (λ x0, nabs (nsub x0
                       (np_nanmedian (SavGol (remove_at ks 0 (flux star))))))
                       (SavGol (remove_at ks 0 (flux star))))))))) Hf)
    as [neg_inds ->]. simpl.
  by eexists.
Qed.

(** X8: a nan or bad mask that holds an index outside the time array
    makes [MaskOutliers] raise [IndexError]. *)
Theorem MaskOutliers_bad_mask star pos_tol neg_tol :
  Exists (λ i, ¬ valid_index (length (time star)) i)
         (nanmask star ++ badmask star) →
  MaskOutliers SavGol star pos_tol neg_tol = Err IndexError.
Proof.
  intros H. unfold MaskOutliers, np_delete.
  by rewrite (mapM_norm_index_invalid (length (time star)) _ H).
Qed.

End MaskOutliersMore.

(** ** More on the uniform grid *)

(** what the loop does to the gaps and to the slots it has passed *)
Lemma grid_loop_gaps (obs : list num) (tol : num) :
  ∀ tunif i st st',
    grid_loop obs tol i tunif st = Ok st' →
    length (g_time st') = length (g_time st)
    ∧ (∀ k, (k < i)%nat → g_time st' !! k = g_time st !! k)
    ∧ ∃ new,
        g_gaps st' = g_gaps st ++ new
        ∧ StronglySorted lt new
        ∧ Forall (λ g, (i ≤ g < i + length tunif)%nat
                       ∧ g_time st' !! g = g_time st !! g) new.
Proof.
  induction tunif as [|t rest IH]; intros i st st'; cbn [grid_loop].
  - intros [= <-]. split; [done|]. split; [done|].
    exists []. rewrite app_nil_r. repeat split; constructor.
  - intros H. apply bind_Ok in H as (o & _ & H).
    destruct (nltb (nabs (nsub o t)) tol).
    + cbn [g_j] in H.
      destruct (S (g_j st) =? length obs)%nat.
      * injection H as <-. simpl. rewrite length_insert.
        split; [done|]. split.
        { intros k Hk. by rewrite list_lookup_insert_ne by lia. }
        exists []. rewrite app_nil_r. repeat split; constructor.
      * apply IH in H as (Hlen & Hpre & new & Hg & Hs & Hr). simpl in *.
        rewrite length_insert in Hlen. split; [done|]. split.
        { intros k Hk. rewrite Hpre by lia.
          by rewrite list_lookup_insert_ne by lia. }
        exists new. split; [done|]. split; [done|].
        eapply Forall_impl; [exact Hr|]. simpl. intros g [Hg1 Hg2].
        split; [lia|]. rewrite Hg2. by rewrite list_lookup_insert_ne by lia.
    + apply IH in H as (Hlen & Hpre & new & Hg & Hs & Hr). simpl in *.
      split; [done|]. split.
      { intros k Hk. apply Hpre. lia. }
      exists (i :: new). rewrite <- app_assoc in Hg. split; [done|]. split.
      * constructor; [done|]. eapply Forall_impl; [exact Hr|].
        simpl. intros g [? _]. lia.
      * constructor.
        -- split; [lia|]. apply Hpre. lia.
        -- eapply Forall_impl; [exact Hr|]. simpl. intros g [? ?].
           split; [lia|done].
Qed.

Lemma uniform_grid_Ok (obs : list num) (st : grid_state) :
  uniform_grid obs = Ok st →
  ∃ first last tunif,
    py_index obs 0 = Ok first
    ∧ py_index obs (-1) = Ok last
    ∧ np_arange first
        (nadd last (ndiv (np_nanmedian (np_diff obs)) (Fin 5)))
        (np_median (np_diff obs)) = Ok tunif
    ∧ grid_loop obs (ndiv (np_nanmedian (np_diff obs)) (Fin 5)) 0 tunif
        {| g_time := tunif; g_gaps := []; g_j := 0 |} = Ok st.
Proof.
  unfold uniform_grid. intros H.
  apply bind_Ok in H as (first & Hf & H).
  apply bind_Ok in H as (last & Hl & H).
  apply bind_Ok in H as (tunif & Ht & H).
  by exists first, last, tunif.
Qed.

(** X9: whenever the grid is built, its gaps are listed in strictly
    increasing order, each is a slot of the grid, and a gap slot keeps
    the value [np.arange] gave it. *)
Theorem uniform_grid_gaps_sorted (obs : list num) (st : grid_state) :
  uniform_grid obs = Ok st →
  StronglySorted lt (g_gaps st)
  ∧ Forall (λ g, (g < length (g_time st))%nat) (g_gaps st)
  ∧ ∃ first last tunif,
      py_index obs 0 = Ok first
      ∧ py_index obs (-1) = Ok last
      ∧ np_arange first
          (nadd last (ndiv (np_nanmedian (np_diff obs)) (Fin 5)))
          (np_median (np_diff obs)) = Ok tunif
      ∧ length (g_time st) = length tunif
      ∧ Forall (λ g, g_time st !! g = tunif !! g) (g_gaps st).
Proof.
  intros H. apply uniform_grid_Ok in H as (first & last & tunif & Hf & Hl & Ht & H).
  apply grid_loop_gaps in H as (Hlen & _ & new & Hg & Hs & Hr).
  simpl in *. subst new. split; [done|]. split.
  - eapply Forall_impl; [exact Hr|]. simpl. intros g [? _]. lia.
  - exists first, last, tunif. repeat (split; [done|]).
    eapply Forall_impl; [exact Hr|]. simpl. by intros g [_ ?].
Qed.

(** an empty chunk and a chunk of one cadence *)
Lemma uniform_grid_short (obs : list num) :
  (length obs < 2)%nat → ∃ e, uniform_grid obs = Err e.
Proof.
  destruct obs as [|x [|y obs]]; simpl; [| |lia]; intros _.
  - by exists IndexError.
  - exists ArangeError. by destruct x.
Qed.

Lemma mapM_py_index_length {A : Type} (l : list A) (m : list Z) (l' : list A) :
  np_take l m = Ok l' → length l' = length m.
Proof. apply mapM_Ok_length. Qed.

Section GridMore.

Variable Factor : Type.
Variable get_masked_chunk : Star → Z → list Z.
Variable design : Star → nat → list Z → matrix.
Variable GetCovariance : string → list num → list num → list num → matrix.
Variable cho_factor : matrix → result Factor.

Abbreviation chunk_data :=
  (GetChunkData Factor get_masked_chunk design GetCovariance cho_factor).

(** X10: a chunk with fewer than two unmasked cadences makes
    [GetChunkData] raise, whatever the externals return: with no cadence
    there is no first time, with one the median spacing is undefined and
    [np.arange] cannot compute a length. *)
Theorem GetChunkData_short_chunk star chunk joint_fit :
  (length (get_masked_chunk star chunk) < 2)%nat →
  ∃ e, chunk_data star chunk joint_fit = Err e.
Proof.
  intros Hshort. unfold GetChunkData.
  destruct (chunk_covariance _ _ _ _ _ _) as [[K fl]|e]; simpl; [|by eexists].
  destruct (cho_factor K) as [C|e]; simpl; [|by eexists].
  destruct (np_take _ _) as [obs|e] eqn:Hobs; simpl; [|by eexists].
  apply mapM_py_index_length in Hobs.
  destruct (uniform_grid_short obs) as [e ->]; [lia|]. by exists e.
Qed.

End GridMore.

(** X11: on a chunk of finite times whose median spacing is zero,
    building the grid raises: [np.arange] is asked for steps of length
    zero. *)
Theorem uniform_grid_zero_spacing (obs : list num) (q : Q) :
  Forall finite obs → np_median (np_diff obs) = Fin q → (q == 0)%Q →
  uniform_grid obs = Err ArangeError.
Proof.
  intros Hfin Hmed Hq.
  destruct (finite_ends obs q Hfin Hmed) as (a & b & Ha & Hb & _).
  unfold uniform_grid.
  rewrite np_nanmedian_finite by (by apply np_diff_finite). rewrite Hmed.
  change (py_index obs 0) with (py_index obs (Z.of_nat 0)).
  rewrite (proj2 (py_index_nat obs 0 (Fin a)) Ha).
  rewrite (py_index_last obs (Fin b) Hb). simpl.
  unfold np_arange.
  pose proof (ndiv_zero_not_finite
                (nsub (nadd (Fin b) (ndiv (Fin q) (Fin 5))) (Fin a)) q Hq) as Hnf.
  by destruct (ndiv _ (Fin q)).
Qed.




(** ** Finite vectors *)

Lemma forallb_isfinite (x : list num) :
  Forall finite x → forallb isfinite x = true.
Proof.
  induction 1 as [|a x [q ->] _ IH]; simpl; [done|exact IH].
Qed.

Lemma row_dot_acc (a b : list num) :
  Forall finite a → Forall finite b →
  ∀ acc, ∃ q, foldl nadd (Fin acc) (zip_with nmul a b) = Fin q
              ∧ (q == acc + dotQ a b)%Q.
Proof.
  intros Ha. revert b. induction Ha as [|x a [qx ->] _ IH]; intros b Hb acc.
  - exists acc. split; [done|]. simpl. lra.
  - destruct Hb as [|y b [qy ->] Hb].
    + exists acc. split; [done|]. simpl. lra.
    + simpl. rewrite nmul_fin, nadd_fin.
      destruct (IH b Hb (Qred (acc + Qred (qx * qy)))) as (q & -> & Hq).
      exists q. split; [done|]. rewrite Hq, !Qred_correct. lra.
Qed.

Lemma row_dot_fin (a b : list num) :
  Forall finite a → Forall finite b →
  ∃ q, row_dot a b = Fin q ∧ (q == dotQ a b)%Q.
Proof.
  intros Ha Hb. destruct (row_dot_acc a b Ha Hb 0) as (q & Hq & Hv).
  exists q. split; [exact Hq|]. rewrite Hv. lra.
Qed.




Lemma np_scale_finite (a : list num) (c : num) :
  Forall finite a → finite c → Forall finite (np_scale a c).
Proof.
  intros Ha [qc ->]. unfold np_scale. apply Forall_map.
  eapply Forall_impl; [exact Ha|]. intros x [q ->]. by eexists.
Qed.

Lemma zip_nsub_finite (a b : list num) :
  Forall finite a → Forall finite b → Forall finite (zip_with nsub a b).
Proof.
  intros Ha. revert b. induction Ha as [|x a [qx ->] _ IH]; intros b Hb;
    [constructor|].
  destruct Hb as [|y b [qy ->] Hb]; [constructor|].
  simpl. constructor; [by eexists | by apply IH].
Qed.

Lemma remove_at_Forall {A : Type} (P : A → Prop) (ks : list nat) (l : list A) :
  Forall P l → ∀ i, Forall P (remove_at ks i l).
Proof.
  induction 1 as [|x l Hx _ IH]; intros i; simpl; [constructor|].
  destruct (bool_decide (i ∈ ks)); [apply IH|]. constructor; [done|apply IH].
Qed.

Lemma insert_sorted_Forall (P : num → Prop) (x : num) (l : list num) :
  P x → Forall P l → Forall P (insert_sorted x l).
Proof.
  intros Hx. induction 1 as [|y l Hy Hl IH]; simpl.
  - by constructor.
  - destruct (nleb x y); constructor; try done. by constructor.
Qed.

Lemma insert_sorted_length (x : num) (l : list num) :
  length (insert_sorted x l) = S (length l).
Proof.
  induction l as [|y l IH]; simpl; [done|].
  destruct (nleb x y); simpl; [done|]. by rewrite IH.
Qed.

Lemma np_sort_Forall (P : num → Prop) (l : list num) :
  Forall P l → Forall P (np_sort l).
Proof.
  induction 1 as [|x l Hx _ IH]; simpl; [constructor|].
  by apply insert_sorted_Forall.
Qed.

Lemma np_sort_length (l : list num) : length (np_sort l) = length l.
Proof.
  induction l as [|x l IH]; simpl; [done|].
  by rewrite insert_sorted_length, IH.
Qed.

(** the median of finite values is finite *)
Lemma np_nanmedian_is_finite (l : list num) :
  Forall finite l → l ≠ [] → finite (np_nanmedian l).
Proof.
  intros Hfin Hne. rewrite np_nanmedian_finite by done.
  unfold np_median.
  assert (Hex : existsb isnan l = false).
  { clear Hne. induction Hfin as [|x l [q ->] _ IH]; simpl; done. }
  rewrite Hex. unfold median_sorted. rewrite np_sort_length.
  assert (Hlen : (0 < length l)%nat) by (destruct l; [done|simpl; lia]).
  destruct (Nat.eqb_spec (length l) 0) as [?|_]; [lia|].
  pose proof (np_sort_Forall finite l Hfin) as Hs.
  assert (Hget : ∀ k, (k < length l)%nat →
                      finite (default NaN (np_sort l !! k))).
  { intros k Hk.
    destruct (lookup_lt_is_Some_2 (np_sort l) k) as [y Hy];
      [by rewrite np_sort_length|].
    rewrite Hy. simpl. eapply Forall_lookup_1; eauto. }
  destruct (Nat.odd (length l)).
  - apply Hget. apply Nat.div_lt; lia.
  - destruct (Hget (length l / 2 - 1)%nat) as [a ->].
    { pose proof (Nat.div_lt (length l) 2). lia. }
    destruct (Hget (length l / 2)%nat) as [b ->].
    { apply Nat.div_lt; lia. }
    rewrite nadd_fin, ndiv_fin by (intros H; discriminate H). by eexists.
Qed.


(** *** Sums of products as numbers in lowest terms *)




(** ** The chunk scan *)

Section Scan.

Variable Factor : Type.
Variable transit_model : list num → num → list num.
Variable cho_solve : Factor → list num → result (list num).

Abbreviation step := (scan_step Factor transit_model cho_solve).
Abbreviation scan := (scan_chunk Factor transit_model cho_solve).
Abbreviation cand := (candidate Factor transit_model cho_solve).
Abbreviation shaped := (well_shaped Factor transit_model cho_solve).
Lemma put_sized n st i c : sized n st → sized n (put st i c).
Proof. intros (?&?&?). unfold sized, put; simpl. by rewrite !length_insert. Qed.

(** one iteration writes slot [i] of the three arrays and nothing else *)
Lemma scan_step_candidate t gaps fl C baseline lnL0 st i n :
  sized n st → (i < n)%nat →
  step t gaps fl C baseline lnL0 st i
  = c ← cand t gaps fl C baseline lnL0 i; Ok (put st i c).
Proof.
  intros (Hd & Hv & Hx) Hi. unfold scan_step, candidate.
  destruct (py_index t (Z.of_nat i)) as [ti|e]; simpl; [|done].
  destruct (np_delete _ _) as [shape0|e]; simpl; [|done].
  destruct (cho_solve C (np_scale shape0 baseline)) as [s|e]; simpl; [|done].
  destruct (np_dot (np_scale shape0 baseline) s) as [dd|e]; simpl; [|done].
  assert (Hvi : py_index (<[i := ndiv (Fin 1) dd]> (s_var st)) (Z.of_nat i)
                = Ok (ndiv (Fin 1) dd)).
  { apply py_index_nat, list_lookup_insert_eq. lia. }
  rewrite Hvi; simpl.
  destruct (isfinite (ndiv (Fin 1) dd)); simpl.
  - destruct (cho_solve C fl) as [sf|e]; simpl; [|done].
    destruct (np_dot (np_scale shape0 baseline) sf) as [df|e]; simpl; [|done].
    assert (Hdi : py_index (<[i := nmul (ndiv (Fin 1) dd) df]> (s_d st)) (Z.of_nat i)
                  = Ok (nmul (ndiv (Fin 1) dd) df)).
    { apply py_index_nat, list_lookup_insert_eq. lia. }
    rewrite Hdi; simpl.
    destruct (np_sub _ _) as [r|e]; simpl; [|done].
    destruct (cho_solve C r) as [sr|e]; simpl; [|done].
    destruct (np_dot r sr) as [dr|e]; simpl; done.
  - unfold put; simpl. by rewrite list_insert_insert_eq.
Qed.

(** the loop over the candidates [k, k + n) *)
Lemma scan_loop_Ok t gaps fl C baseline lnL0 len n :
  ∀ k st st',
    sized len st → (k + n ≤ len)%nat →
    foldM (step t gaps fl C baseline lnL0) st (seq k n) = Ok st' →
    sized len st'
    ∧ (∀ i, (k ≤ i < k + n)%nat →
         ∃ c, cand t gaps fl C baseline lnL0 i = Ok c
              ∧ s_d st' !! i = Some c.1.1
              ∧ s_var st' !! i = Some c.1.2
              ∧ s_dchisq st' !! i = Some c.2)
    ∧ (∀ i, (i < k)%nat →
         s_d st' !! i = s_d st !! i
         ∧ s_var st' !! i = s_var st !! i
         ∧ s_dchisq st' !! i = s_dchisq st !! i).
Proof.
  induction n as [|n IH]; intros k st st' Hsz Hk; simpl.
  - intros [= <-]. split; [done|]. split; [intros i ?; lia | done].
  - rewrite (scan_step_candidate _ _ _ _ _ _ _ _ len) by (done || lia).
    destruct (cand t gaps fl C baseline lnL0 k) as [c|e] eqn:Hc; simpl;
      [|discriminate].
    intros Hrest.
    destruct (IH (S k) (put st k c) st') as (Hsz' & Hin & Hout);
      [by apply put_sized | lia | done |].
    split; [done|]. split.
    + intros i Hi. destruct (decide (i = k)) as [->|Hne].
      * exists c. split; [done|].
        destruct (Hout k) as (-> & -> & ->); [lia|].
        destruct Hsz as (?&?&?). unfold put; simpl.
        rewrite !list_lookup_insert_eq by lia. done.
      * apply Hin. lia.
    + intros i Hi. destruct (Hout i) as (-> & -> & ->); [lia|].
      unfold put; simpl. rewrite !list_lookup_insert_ne by lia. done.
Qed.

(** the loop does not stop as long as every candidate can be evaluated *)
Lemma scan_loop_total t gaps fl C baseline lnL0 len n :
  ∀ k st,
    sized len st → (k + n ≤ len)%nat →
    (∀ i, (k ≤ i < k + n)%nat →
       ∃ c, cand t gaps fl C baseline lnL0 i = Ok c) →
    ∃ st', foldM (step t gaps fl C baseline lnL0) st (seq k n) = Ok st'.
Proof.
  induction n as [|n IH]; intros k st Hsz Hk Hall; simpl.
  - by eexists.
  - rewrite (scan_step_candidate _ _ _ _ _ _ _ _ len) by (done || lia).
    destruct (Hall k) as [c ->]; [lia|]. simpl.
    apply IH; [by apply put_sized | lia |].
    intros i Hi. apply Hall. lia.
Qed.

Lemma zeros_sized n :
  sized n {| s_d := replicate n (Fin 0); s_var := replicate n (Fin 0);
             s_dchisq := replicate n (Fin 0) |}.
Proof. unfold sized; simpl. by rewrite !length_replicate. Qed.

(** what [scan_chunk] returns, candidate by candidate *)
Lemma scan_chunk_Ok t gaps fl C st :
  scan t gaps fl C = Ok st →
  ∃ sf,
    cho_solve C fl = Ok sf ∧ length fl = length sf
    ∧ sized (length t) st
    ∧ ∀ i, (i < length t)%nat →
        ∃ c, cand t gaps fl C (np_nanmedian fl)
               (nmul (Fin (-1 # 2)) (row_dot fl sf)) i = Ok c
             ∧ s_d st !! i = Some c.1.1
             ∧ s_var st !! i = Some c.1.2
             ∧ s_dchisq st !! i = Some c.2.
Proof.
  unfold scan_chunk.
  destruct (cho_solve C fl) as [sf|e]; simpl; [|discriminate].
  unfold np_dot. destruct (Nat.eqb_spec (length fl) (length sf)) as [Hlen|?];
    simpl; [|discriminate].
  intros H. exists sf. split; [done|]. split; [done|].
  apply (scan_loop_Ok _ _ _ _ _ _ (length t)) in H as (Hsz & Hin & _);
    [|apply zeros_sized|lia].
  split; [done|]. intros i Hi. apply Hin. lia.
Qed.

End Scan.

Section ScanClaims.

Variable Factor : Type.
Variable transit_model : list num → num → list num.
Variable cho_solve : Factor → list num → result (list num).

Abbreviation scan := (scan_chunk Factor transit_model cho_solve).
Abbreviation cand := (candidate Factor transit_model cho_solve).
Abbreviation shaped := (well_shaped Factor transit_model cho_solve).

(** the shape of a candidate centred on a slot of a well-shaped chunk
    is finite and has one value per flux value *)
Lemma shape_finite t gaps fl C ti :
  shaped t gaps fl C → ti ∈ t →
  let shape := np_scale (remove_at gaps 0 (transit_model t ti))
                        (np_nanmedian fl) in
  length shape = length fl ∧ Forall finite shape.
Proof.
  intros (Hfl & Hshape & Htm & _ & Hrem & _) Hti shape.
  assert (Hlen : length shape = length fl).
  { unfold shape. rewrite np_scale_length, <- Hrem.
    apply remove_at_length, Hshape. }
  split; [done|].
  destruct fl as [|f0 fl'] eqn:Efl.
  - apply nil_length_inv in Hlen. rewrite Hlen. constructor.
  - apply np_scale_finite; [by apply remove_at_Forall, Htm|].
    by apply np_nanmedian_is_finite.
Qed.

(** the two ways a candidate of a well-shaped chunk ends: every system
    it hands to the solver is finite *)
Lemma candidate_run t gaps fl C lnL0 i ti :
  shaped t gaps fl C → t !! i = Some ti →
  let shape := np_scale (remove_at gaps 0 (transit_model t ti))
                        (np_nanmedian fl) in
  ∃ s sf,
    cho_solve C shape = Ok s
    ∧ cho_solve C fl = Ok sf
    ∧ let v := ndiv (Fin 1) (row_dot shape s) in
      (isfinite v = false
       ∧ cand t gaps fl C (np_nanmedian fl) lnL0 i = Ok (NaN, NaN, NaN))
      ∨ (isfinite v = true
         ∧ ∃ sr,
             let d := nmul v (row_dot shape sf) in
             let r := zip_with nsub fl (np_scale shape d) in
             cho_solve C r = Ok sr
             ∧ cand t gaps fl C (np_nanmedian fl) lnL0 i
               = Ok (d, v, nmul (Fin (-2 # 1))
                             (nsub lnL0 (nmul (Fin (-1 # 2)) (row_dot r sr))))).
Proof.
  intros Hwf Hti shape.
  destruct (shape_finite t gaps fl C ti Hwf) as [Hlen Hfs];
    [by eapply list_elem_of_lookup_2|].
  fold shape in Hlen, Hfs.
  destruct Hwf as (Hfl & Hshape & _ & Hgaps & _ & Hsolve).
  destruct (Hsolve shape Hlen Hfs) as (s & Hs & Hls & Hfin_s).
  destruct (Hsolve fl eq_refl Hfl) as (sf & Hsf & Hlsf & Hfin_sf).
  exists s, sf. split; [done|]. split; [done|].
  unfold candidate.
  rewrite (proj2 (py_index_nat t i ti) Hti). simpl.
  rewrite np_delete_nat by (by rewrite Hshape). simpl.
  fold shape. rewrite Hs. simpl.
  rewrite np_dot_Ok by congruence. simpl.
  destruct (isfinite (ndiv (Fin 1) (row_dot shape s))) eqn:Hv; simpl;
    [right|by left].
  split; [done|].
  rewrite Hsf. simpl. rewrite np_dot_Ok by congruence. simpl.
  rewrite np_sub_Ok by (by rewrite np_scale_length). simpl.
  set (d := nmul _ (row_dot shape sf)).
  assert (Hd : finite d).
  { unfold d. destruct (ndiv (Fin 1) (row_dot shape s)) as [qv| | |];
      try discriminate.
    destruct (row_dot_fin shape sf Hfs Hfin_sf) as (qb & -> & _).
    rewrite nmul_fin. by eexists. }
  set (r := zip_with nsub fl (np_scale shape d)).
  assert (Hr : length r = length fl).
  { unfold r. rewrite length_zip_with, np_scale_length. lia. }
  assert (Hfr : Forall finite r).
  { apply zip_nsub_finite; [done|]. by apply np_scale_finite. }
  destruct (Hsolve r Hr Hfr) as (sr & Hsr & Hlsr & _).
  exists sr. split; [done|]. rewrite Hsr. simpl.
  rewrite np_dot_Ok by congruence. done.
Qed.

Lemma scan_chunk_total t gaps fl C :
  shaped t gaps fl C → ∃ st, scan t gaps fl C = Ok st.
Proof.
  intros Hwf. unfold scan_chunk.
  assert (Hwf' := Hwf).
  destruct Hwf' as (Hfl & _ & _ & _ & _ & Hsolve).
  destruct (Hsolve fl eq_refl Hfl) as (sf & -> & Hsf & _). simpl.
  rewrite np_dot_Ok by done. simpl.
  apply (scan_loop_total _ _ _ _ _ _ _ _ _ (length t));
    [apply zeros_sized | lia |].
  intros i Hi.
  destruct (lookup_lt_is_Some_2 t i) as [ti Hti]; [lia|].
  destruct (candidate_run t gaps fl C
              (nmul (Fin (-1 # 2)) (row_dot fl sf)) i ti Hwf Hti)
    as (s & sf' & _ & _ & [[_ Hc]|(_ & sr & _ & Hc)]); by eexists.
Qed.

(** the scan of a well-shaped chunk returns, and every slot holds what
    its own candidate computes: three [nan] when its variance is not
    finite, the matched-filter values otherwise *)
Lemma scan_chunk_slots t gaps fl C :
  shaped t gaps fl C →
  ∃ st sf,
    scan t gaps fl C = Ok st
    ∧ cho_solve C fl = Ok sf
    ∧ sized (length t) st
    ∧ ∀ i ti, t !! i = Some ti →
        let shape := np_scale (remove_at gaps 0 (transit_model t ti))
                              (np_nanmedian fl) in
        let lnL0 := nmul (Fin (-1 # 2)) (row_dot fl sf) in
        ∃ s,
          cho_solve C shape = Ok s
          ∧ let v := ndiv (Fin 1) (row_dot shape s) in
            (isfinite v = false
             ∧ s_d st !! i = Some NaN
             ∧ s_var st !! i = Some NaN
             ∧ s_dchisq st !! i = Some NaN)
            ∨ (isfinite v = true
               ∧ ∃ sr,
                   let d := nmul v (row_dot shape sf) in
                   let r := zip_with nsub fl (np_scale shape d) in
                   let lnL := nmul (Fin (-1 # 2)) (row_dot r sr) in
                   cho_solve C r = Ok sr
                   ∧ s_d st !! i = Some d
                   ∧ s_var st !! i = Some v
                   ∧ s_dchisq st !! i
                     = Some (nmul (Fin (-2 # 1)) (nsub lnL0 lnL))).
Proof.
  intros Hwf. destruct (scan_chunk_total _ _ _ _ Hwf) as [st Hst].
  destruct (scan_chunk_Ok _ _ _ _ _ _ _ _ Hst) as (sf & Hsf & _ & Hsz & Hall).
  exists st, sf. split; [done|]. split; [done|]. split; [done|].
  intros i ti Hti shape lnL0.
  destruct (Hall i) as (c & Hc & Hd & Hv & Hx); [by eapply lookup_lt_Some|].
  destruct (candidate_run t gaps fl C lnL0 i ti Hwf Hti)
    as (s & sf' & Hs & Hsf' & Hcase).
  rewrite Hsf in Hsf'. injection Hsf' as <-.
  exists s. split; [done|]. fold shape in Hcase. fold lnL0 in Hc.
  destruct Hcase as [[Hfin Hc']|(Hfin & sr & Hsr & Hc')];
    rewrite Hc in Hc'; injection Hc' as ->.
  - left. by repeat split.
  - right. split; [done|]. exists sr. by repeat split.
Qed.

(** C1: on a chunk without undefined values, the scan returns one
    depth, one variance and one delta chi-square per grid slot, and at
    every slot whose variance [1 / (shape . solve(C, shape))] is finite
    they are the matched-filter values: the variance is that number,
    the depth is the variance times [shape . solve(C, flux)], and the
    delta chi-square is [-2 * (lnL0 - lnL)] with
    [lnL0 = -0.5 * flux . solve(C, flux)], [r = flux - shape * depth]
    and [lnL = -0.5 * r . solve(C, r)]; the shape is the transit shape
    on the whole grid centred at the slot's time, without its entries
    at the gaps, times the median flux. *)
Theorem scan_chunk_matched_filter t gaps fl C :
  well_shaped Factor transit_model cho_solve t gaps fl C →
  ∃ st sf,
    scan_chunk Factor transit_model cho_solve t gaps fl C = Ok st
    ∧ cho_solve C fl = Ok sf
    ∧ length (s_d st) = length t
    ∧ length (s_var st) = length t
    ∧ length (s_dchisq st) = length t
    ∧ ∀ i ti,
        t !! i = Some ti →
        let shape := np_scale (remove_at gaps 0 (transit_model t ti))
                              (np_nanmedian fl) in
        let lnL0 := nmul (Fin (-1 # 2)) (row_dot fl sf) in
        ∃ s,
          cho_solve C shape = Ok s
          ∧ let v := ndiv (Fin 1) (row_dot shape s) in
            (isfinite v = true →
             ∃ sr,
               let d := nmul v (row_dot shape sf) in
               let r := zip_with nsub fl (np_scale shape d) in
               let lnL := nmul (Fin (-1 # 2)) (row_dot r sr) in
               cho_solve C r = Ok sr
               ∧ s_var st !! i = Some v
               ∧ s_d st !! i = Some d
               ∧ s_dchisq st !! i
                 = Some (nmul (Fin (-2 # 1)) (nsub lnL0 lnL))).
Proof.
  intros Hwf.
  destruct (scan_chunk_slots _ _ _ _ Hwf)
    as (st & sf & Hst & Hsf & (Hl1 & Hl2 & Hl3) & Hall).
  exists st, sf. repeat (split; [done|]).
  intros i ti Hti shape lnL0.
  destruct (Hall i ti Hti) as (s & Hs & Hcase).
  exists s. split; [done|]. intros v Hfin.
  destruct Hcase as [(Hinf & _)|(_ & sr & Hsr & Hd & Hv & Hx)].
  - subst v shape. rewrite Hfin in Hinf. discriminate Hinf.
  - exists sr. by repeat split.
Qed.


End ScanClaims.

(** ** The delta chi-square of a candidate *)

Section DeltaChisq.

Variable Factor : Type.
Variable transit_model : list num → num → list num.
Variable cho_solve : Factor → list num → result (list num).


End DeltaChisq.

(** ** The chunk scan on the concrete instance *)

Module ScanFacts.
Import Instance Inputs.

Lemma solve_diag_finite (C : Factor) :
  nonzero_diagonal C → ∀ x, Forall finite x → Forall finite (zip_with ndiv x C).
Proof.
  induction 1 as [|c C (qc & -> & Hc) _ IH]; intros x Hx.
  - destruct x; constructor.
  - destruct Hx as [|a x [qa ->] Hx]; [constructor|].
    simpl. constructor; [|by apply IH].
    rewrite ndiv_fin by done. by eexists.
Qed.



(** the solver of the instance on a finite right-hand side *)
Lemma cho_solve_finite (C : Factor) (x : list num) :
  length x = length C → Forall finite x →
  cho_solve C x = Ok (zip_with ndiv x C).
Proof.
  intros Hlen Hx. unfold cho_solve.
  by rewrite (forallb_isfinite x Hx), Hlen, Nat.eqb_refl.
Qed.

(** it refuses a right-hand side that holds [nan] *)
Lemma cho_solve_refuses_nan :
  cho_solve C1 [Fin 1; NaN; Fin 0; Fin 1] = Err NonFiniteError.
Proof. reflexivity. Qed.


Lemma transit_model_finite (t : list num) (c : num) :
  Forall finite (transit_model t c).
Proof.
  unfold transit_model. apply Forall_map, Forall_true.
  intros x. destruct (neqb x c); by eexists.
Qed.


Lemma nonzero_diagonal2 : nonzero_diagonal C2.
Proof.
  repeat constructor; eexists; (split; [reflexivity|]); intros H;
    discriminate H.
Qed.

(** a chunk of four cadences on the grid [t1], with a diagonal
    factorisation without zero, is well shaped *)
Lemma well_shaped_diag (fl : list num) (C : Factor) :
  Forall finite fl → length fl = 4%nat → length C = 4%nat →
  nonzero_diagonal C →
  well_shaped Factor transit_model cho_solve t1 gaps1 fl C.
Proof.
  intros Hfl Hlen HlC HC. split; [done|]. split; [|split; [|split; [|split]]].
  - intros c. unfold transit_model. by rewrite length_map.
  - intros c _. apply transit_model_finite.
  - repeat constructor; simpl; lia.
  - by rewrite Hlen.
  - intros v Hv Hfv. rewrite cho_solve_finite by congruence.
    eexists. split; [done|].
    split; [rewrite length_zip_with; lia | by apply solve_diag_finite].
Qed.


Lemma well_shaped2 :
  well_shaped Factor transit_model cho_solve t1 gaps1 fl2 C2.
Proof.
  apply well_shaped_diag; [|done|done|exact nonzero_diagonal2].
  repeat constructor; by eexists.
Qed.

Lemma scan_chunk_matched_filter_witness :
  well_shaped Factor transit_model cho_solve t1 gaps1 fl2 C2
  ∧ ∃ st,
      scan_chunk Factor transit_model cho_solve t1 gaps1 fl2 C2 = Ok st
      ∧ length (s_var st) = 6%nat
      ∧ s_var st !! 1%nat = Some (Fin (8 # 25))
      ∧ s_d st !! 1%nat = Some (Fin (-2 # 5))
      ∧ s_dchisq st !! 1%nat = Some (Fin (1 # 2)).
Proof.
  split; [exact well_shaped2|].
  destruct (scan_chunk_matched_filter Factor transit_model cho_solve
              t1 gaps1 fl2 C2 well_shaped2)
    as (st & sf & Hst & Hsf & _ & Hlen & _ & Hall).
  exists st. split; [exact Hst|]. split; [exact Hlen|].
  destruct (Hall 1%nat (of_Z 1) eq_refl) as (s & Hs & Hfin).
  vm_compute in Hsf. injection Hsf as <-.
  vm_compute in Hs. injection Hs as <-.
  destruct Hfin as (sr & Hsr & Hv & Hd & Hx); [reflexivity|].
  vm_compute in Hsr. injection Hsr as <-.
  split; [exact Hv|]. split; [exact Hd|]. exact Hx.
Defined.



End ScanFacts.

(** ** More on the search *)

Section SearchMore.

Variable Factor : Type.
Variable get_masked_chunk : Star → Z → list Z.
Variable design : Star → nat → list Z → matrix.
Variable GetCovariance : string → list num → list num → list num → matrix.
Variable SavGol : list num → list num.
Variable transit_model : list num → num → list num.
Variable cho_factor : matrix → result Factor.
Variable cho_solve : Factor → list num → result (list num).

Abbreviation chunk_data :=
  (GetChunkData Factor get_masked_chunk design GetCovariance cho_factor).
Abbreviation scan := (scan_chunk Factor transit_model cho_solve).
Abbreviation one_chunk :=
  (search_chunk Factor get_masked_chunk design GetCovariance transit_model
                cho_factor cho_solve).
Abbreviation recompute :=
  (compute Factor get_masked_chunk design GetCovariance transit_model
           cho_factor cho_solve).
Abbreviation search :=
  (Search Factor get_masked_chunk design GetCovariance SavGol transit_model
          cho_factor cho_solve).

Lemma search_chunk_Ok star joint_fit acc b r :
  one_chunk star joint_fit acc b = Ok r →
  ∃ t gaps fl C st,
    chunk_data star (Z.of_nat b) joint_fit = Ok (t, gaps, fl, C)
    ∧ scan t gaps fl C = Ok st
    ∧ r = {| sr_time := sr_time acc ++ t;
             sr_ml_depth := sr_ml_depth acc ++ s_d st;
             sr_depth_variance := sr_depth_variance acc ++ s_var st;
             sr_delta_chisq := sr_delta_chisq acc ++ s_dchisq st |}.
Proof.
  unfold search_chunk. intros H.
  apply bind_Ok in H as ([[[t gaps] fl] C] & Hc & H).
  apply bind_Ok in H as (st & Hst & H). injection H as <-.
  by exists t, gaps, fl, C, st.
Qed.

Lemma search_chunk_aligned star joint_fit acc b r :
  aligned acc → one_chunk star joint_fit acc b = Ok r → aligned r.
Proof.
  intros (H1 & H2 & H3) H.
  apply search_chunk_Ok in H as (t & gaps & fl & C & st & _ & Hst & ->).
  apply scan_chunk_Ok in Hst as (_ & _ & _ & (Hd & Hv & Hx) & _).
  unfold aligned. simpl. rewrite !length_app. lia.
Qed.

Lemma compute_loop_aligned star joint_fit bs :
  ∀ acc r, aligned acc → foldM (one_chunk star joint_fit) acc bs = Ok r → aligned r.
Proof.
  induction bs as [|b bs IH]; intros acc r Hacc; simpl.
  - by intros [= <-].
  - intros H. apply bind_Ok in H as (acc' & Hstep & H).
    apply (IH acc'); [|done]. by apply (search_chunk_aligned star joint_fit acc b).
Qed.

(** X14: a result [Search] has computed, rather than read from the
    cache, holds four arrays of the same length: one depth, one variance
    and one delta chi-square per time. *)
Theorem Search_computed_aligned star d joint_fit clobber pos_tol neg_tol r :
  clobber || negb (path_exists d (cache_name (ID star) joint_fit)) = true →
  returned (Search Factor get_masked_chunk design GetCovariance SavGol
              transit_model cho_factor cho_solve
              star d joint_fit clobber pos_tol neg_tol) = Ok r →
  aligned r.
Proof.
  intros Hgo. unfold Search. rewrite Hgo.
  destruct (MaskOutliers SavGol star pos_tol neg_tol) as [star'|e]; [|done].
  destruct (recompute star' joint_fit) as [r'|e] eqn:Hr; [|done].
  destruct (np_savez _ _ _); simpl; [|done]. intros [= <-].
  unfold compute in Hr. apply compute_loop_aligned in Hr; [done|].
  by repeat split.
Qed.

(** X15: whatever happens, [Search] leaves every field of the star but
    the outlier and in-transit masks as it was, keeps the state of the
    disk and every file but the one named after the target and the
    joint-fit flag; when it returns, that file holds the value
    returned; when it raises, that file is as it was or, after a write
    that failed, unreadable. *)
Theorem Search_frame star d joint_fit clobber pos_tol neg_tol :
  let o := Search Factor get_masked_chunk design GetCovariance SavGol
             transit_model cho_factor cho_solve
             star d joint_fit clobber pos_tol neg_tol in
  let name := cache_name (ID star) joint_fit in
  (∃ out trn, star_after o = with_masks star out trn)
  ∧ read_only (disk_after o) = read_only d
  ∧ no_space (disk_after o) = no_space d
  ∧ (∀ other, other ≠ name → files (disk_after o) !! other = files d !! other)
  ∧ (∀ r, returned o = Ok r → files (disk_after o) !! name = Some (Npz r))
  ∧ (∀ e, returned o = Err e →
       files (disk_after o) !! name = files d !! name
       ∨ files (disk_after o) !! name = Some Corrupt).
Proof.
  intros o name. subst o. unfold Search. fold name.
  assert (Hsame : ∃ out trn, star = with_masks star out trn).
  { exists (outmask star), (transitmask star). by destruct star. }
  destruct (clobber || negb (path_exists d name)) eqn:Hgo.
  - destruct (MaskOutliers SavGol star pos_tol neg_tol) as [star'|e] eqn:Hm;
      simpl.
    + assert (Hstar : ∃ out trn, star' = with_masks star out trn).
      { unfold MaskOutliers in Hm.
        apply bind_Ok in Hm as (t & _ & Hm).
        apply bind_Ok in Hm as (f0 & _ & Hm).
        apply bind_Ok in Hm as (pos_inds & _ & Hm).
        apply bind_Ok in Hm as (neg_inds & _ & Hm).
        injection Hm as <-. by eexists _, _. }
      destruct (recompute star' joint_fit) as [r|e]; simpl.
      * unfold np_savez, np_savez_failed.
        destruct (read_only d) eqn:Hro; simpl.
        { split_and!; try done. intros e _. by left. }
        destruct (no_space d) eqn:Hns; simpl.
        { split_and!; try done.
          - intros other Hne. by rewrite lookup_insert_ne.
          - intros e _. right. apply lookup_insert_eq. }
        split_and!; try done.
        -- intros other Hne. by rewrite lookup_insert_ne.
        -- intros r' [= <-]. apply lookup_insert_eq.
      * split_and!; try done. intros e' _. by left.
    + split_and!; try done. intros e' _. by left.
  - simpl. split_and!; try done.
    + intros r. unfold np_load.
      by destruct (files d !! name) as [[r'|]|]; [intros [= <-]|..].
    + intros e _. by left.
Qed.

(** X20: a write that fails for want of room costs the result and
    poisons the cache: [Search] raises in place of the result it has
    computed and leaves an unreadable file under the cache name, so the
    next call without clobber raises at once, with nothing recomputed. *)
Theorem Search_failed_write star d joint_fit clobber pos_tol neg_tol star' r :
  read_only d = false → no_space d = true →
  clobber || negb (path_exists d (cache_name (ID star) joint_fit)) = true →
  MaskOutliers SavGol star pos_tol neg_tol = Ok star' →
  compute Factor get_masked_chunk design GetCovariance transit_model
          cho_factor cho_solve star' joint_fit = Ok r →
  let o := Search Factor get_masked_chunk design GetCovariance SavGol
             transit_model cho_factor cho_solve
             star d joint_fit clobber pos_tol neg_tol in
  returned o = Err IOError
  ∧ star_after o = star'
  ∧ files (disk_after o) !! cache_name (ID star) joint_fit = Some Corrupt
  ∧ Search Factor get_masked_chunk design GetCovariance SavGol
      transit_model cho_factor cho_solve
      (star_after o) (disk_after o) joint_fit false pos_tol neg_tol
    = {| returned := Err IOError; star_after := star_after o;
         disk_after := disk_after o |}.
Proof.
  intros Hro Hns Hgo Hm Hr o.
  assert (Ho : o = {| returned := Err IOError; star_after := star';
                      disk_after := np_savez_failed
                                      d (cache_name (ID star) joint_fit) |}).
  { subst o. unfold Search. rewrite Hgo, Hm, Hr. unfold np_savez.
    by rewrite Hro, Hns. }
  rewrite Ho. clear o Ho. unfold np_savez_failed. rewrite Hro. simpl.
  split; [done|]. split; [done|]. split; [apply lookup_insert_eq|].
  apply MaskOutliers_keeps in Hm as [HID _].
  unfold Search, path_exists, np_load. simpl. rewrite HID.
  rewrite lookup_insert_eq.
  rewrite bool_decide_eq_true_2 by (by eexists). done.
Qed.



End SearchMore.

(** ** The name of the cache file *)

Lemma pretty_N_char_no_dot (x : N) : pretty_N_char x ≠ "."%char.
Proof. unfold pretty_N_char. by repeat case_match. Qed.

Lemma pretty_N_char_0 (x : N) :
  (x < 10)%N → pretty_N_char x = "0"%char → x = 0%N.
Proof. intros Hx H. by apply (pretty_N_char_inj x 0). Qed.

Lemma pretty_N_go_no_dot (x : N) :
  ∀ s, no_dot s → no_dot (pretty_N_go x s).
Proof.
  induction (N.lt_wf_0 x) as [x _ IH]. intros s Hs.
  destruct (N.eq_dec x 0%N) as [->|Hne]; [by rewrite pretty_N_go_0|].
  assert (Hx : (0 < x)%N) by (by apply N.neq_0_lt_0).
  rewrite pretty_N_go_step by done. apply IH.
  - by apply N.div_lt.
  - split; [apply pretty_N_char_no_dot|done].
Qed.

(** the first digit of a positive number is not a zero *)
Lemma pretty_N_go_head (x : N) :
  ∀ s, (0 < x)%N → ∃ c rest, pretty_N_go x s = String c rest ∧ c ≠ "0"%char.
Proof.
  induction (N.lt_wf_0 x) as [x _ IH]. intros s Hx.
  rewrite pretty_N_go_step by done.
  destruct (N.eq_dec (x `div` 10)%N 0%N) as [Hd0|Hd].
  - rewrite Hd0, pretty_N_go_0.
    eexists _, _. split; [done|]. intros Hc.
    apply pretty_N_char_0 in Hc; [|by apply N.mod_lt].
    pose proof (N.div_mod x 10%N ltac:(done)) as Hdm.
    rewrite Hd0, Hc in Hdm. rewrite Hdm in Hx. by apply N.lt_irrefl in Hx.
  - apply IH; [by apply N.div_lt|by apply N.neq_0_lt_0].
Qed.

Lemma pretty_Z_no_dot (n : Z) : no_dot (pretty n).
Proof.
  unfold pretty, pretty_Z. destruct n as [|p|p].
  - by split.
  - unfold pretty, pretty_positive, pretty, pretty_N.
    destruct (decide _); [by split|]. by apply pretty_N_go_no_dot.
  - split; [done|]. unfold pretty, pretty_positive, pretty, pretty_N.
    destruct (decide _); [by split|]. by apply pretty_N_go_no_dot.
Qed.

Lemma pretty_Z_head_0 (n : Z) (rest : string) :
  pretty n = String "0" rest → rest = EmptyString.
Proof.
  unfold pretty, pretty_Z. destruct n as [|p|p].
  - by intros [= <-].
  - unfold pretty, pretty_positive, pretty, pretty_N.
    destruct (decide _); [done|].
    destruct (pretty_N_go_head (N.pos p) "") as (c & r & -> & Hc); [lia|].
    by intros [= -> _].
  - done.
Qed.

Lemma fmt_02d_no_dot (n : Z) : no_dot (fmt_02d n).
Proof.
  unfold fmt_02d. pose proof (pretty_Z_no_dot n).
  destruct (_ <? _)%nat; [by split|done].
Qed.

Lemma fmt_02d_inj (n m : Z) : fmt_02d n = fmt_02d m → n = m.
Proof.
  unfold fmt_02d.
  destruct (Nat.ltb_spec (String.length (pretty n)) 2) as [Hn|Hn];
    destruct (Nat.ltb_spec (String.length (pretty m)) 2) as [Hm|Hm].
  - intros [= H]. by apply (inj pretty).
  - intros H. symmetry in H. simpl in H.
    pose proof (pretty_Z_head_0 m _ H) as H0. rewrite H0 in H.
    rewrite H in Hm. simpl in Hm. lia.
  - intros H. simpl in H.
    pose proof (pretty_Z_head_0 n _ H) as H0. rewrite H0 in H.
    rewrite H in Hn. simpl in Hn. lia.
  - apply (inj pretty).
Qed.

Lemma append_dot_inj (a b r1 r2 : string) :
  no_dot a → no_dot b →
  a +:+ String "." r1 = b +:+ String "." r2 → a = b ∧ r1 = r2.
Proof.
  revert b. induction a as [|c a IH]; intros [|c' b]; simpl.
  - by intros _ _ [= <-].
  - intros _ [Hc' _] [= <- _]. done.
  - intros [Hc _] _ [= -> _]. done.
  - intros [_ Ha] [_ Hb] [= <- H]. destruct (IH b Ha Hb H) as [-> ->]. done.
Qed.

(** X17: the name of the cache file tells the target and the joint-fit
    flag: two calls share a cache file only if they have the same target
    identifier and the same flag. *)
Theorem cache_name_inj (id1 id2 : Z) (jf1 jf2 : bool) :
  cache_name id1 jf1 = cache_name id2 jf2 → id1 = id2 ∧ jf1 = jf2.
Proof.
  unfold cache_name. intros H. simpl in H. injection H as H.
  apply append_dot_inj in H as [Hid H]; [|apply fmt_02d_no_dot..].
  split; [by apply fmt_02d_inj|].
  by destruct jf1, jf2.
Qed.

(** ** These properties on concrete inputs *)

Module MoreFacts.
Import Instance Inputs.

Lemma Heatmap_shape_witness :
  Fold.Heatmap time10 dchisq10 [of_Z 3; of_Z 20] [of_Z 0]
  = Ok [[of_Z 73]; [of_Z 0]]
  ∧ length [[of_Z 73]; [of_Z 0]] = 2%nat.
Proof.
  assert (H : Fold.Heatmap time10 dchisq10 [of_Z 3; of_Z 20] [of_Z 0]
              = Ok [[of_Z 73]; [of_Z 0]]) by (vm_compute; reflexivity).
  split; [exact H|]. exact (proj1 (Heatmap_shape _ _ _ _ _ H)).
Defined.

Lemma Heatmap_zero_period_witness :
  time10 ≠ [] ∧ (0 == 0)%Q
  ∧ Fold.Heatmap time10 dchisq10 [Fin 0; of_Z 3] [of_Z 0] = Err ConversionError.
Proof.
  assert (Hne : time10 ≠ []) by discriminate.
  split; [exact Hne|]. split; [reflexivity|].
  exact (Heatmap_zero_period time10 dchisq10 [of_Z 3] [] 0 (of_Z 0) Hne
           (Qeq_refl 0)).
Defined.

Lemma Heatmap_cell_nan_witness :
  Fold.fold_times time4 (of_Z 1) (of_Z 0) = Ok (map of_Z [0; 1; 2])
  ∧ Fold.cell time4 dchisq_nan (of_Z 1) (of_Z 1) (of_Z 0) = Ok NaN.
Proof.
  assert (Ht : Fold.fold_times time4 (of_Z 1) (of_Z 0) = Ok (map of_Z [0; 1; 2]))
    by (vm_compute; reflexivity).
  split; [exact Ht|].
  destruct (Fold.cell time4 dchisq_nan (of_Z 1) (of_Z 1) (of_Z 0)) as [z|e] eqn:Hz;
    [|vm_compute in Hz; discriminate].
  f_equal.
  apply (Heatmap_cell_nan time4 dchisq_nan (of_Z 1) (of_Z 1) (of_Z 0)
           (map of_Z [0; 1; 2]) z (of_Z 1) (of_Z 0) 1 Ht Hz).
  - right. left.
  - reflexivity.
  - vm_compute. reflexivity.
  - reflexivity.
Defined.

Lemma MaskOutliers_outmask_in_range_witness :
  MaskOutliers SavGol star0 pos_tol0 neg_tol0 = Ok star0'
  ∧ Forall (λ k, 0 <= k < 6) (outmask star0').
Proof.
  split; [exact InstanceFacts.MaskOutliers_star0|].
  exact (MaskOutliers_outmask_in_range SavGol star0 pos_tol0 neg_tol0 star0'
           InstanceFacts.MaskOutliers_star0).
Defined.

Lemma MaskOutliers_idempotent_witness :
  MaskOutliers SavGol star0 pos_tol0 neg_tol0 = Ok star0'
  ∧ MaskOutliers SavGol star0' pos_tol0 neg_tol0 = Ok star0'.
Proof.
  split; [exact InstanceFacts.MaskOutliers_star0|].
  exact (MaskOutliers_idempotent SavGol star0 pos_tol0 neg_tol0 star0'
           InstanceFacts.MaskOutliers_star0).
Defined.

Lemma MaskOutliers_total_witness :
  length (flux star0) = length (time star0)
  ∧ ∃ star', MaskOutliers SavGol star0 pos_tol0 neg_tol0 = Ok star'.
Proof.
  split; [reflexivity|].
  apply MaskOutliers_total.
  - reflexivity.
  - constructor.
  - reflexivity.
Defined.

Lemma MaskOutliers_bad_mask_witness :
  ¬ valid_index (length (time star_bad)) 7
  ∧ MaskOutliers SavGol star_bad pos_tol0 neg_tol0 = Err IndexError.
Proof.
  assert (Hbad : ¬ valid_index (length (time star_bad)) 7).
  { unfold valid_index. simpl. lia. }
  split; [exact Hbad|].
  apply MaskOutliers_bad_mask. left. exact Hbad.
Defined.

Lemma uniform_grid_obs_on :
  uniform_grid obs_on
  = Ok {| g_time := map of_Z [0; 1; 2; 3; 4]; g_gaps := [3%nat]; g_j := 4 |}.
Proof. vm_compute. reflexivity. Qed.

Lemma uniform_grid_gaps_sorted_witness :
  uniform_grid obs_on
  = Ok {| g_time := map of_Z [0; 1; 2; 3; 4]; g_gaps := [3%nat]; g_j := 4 |}
  ∧ StronglySorted lt [3%nat].
Proof.
  split; [exact uniform_grid_obs_on|].
  exact (proj1 (uniform_grid_gaps_sorted obs_on _ uniform_grid_obs_on)).
Defined.

Lemma GetChunkData_short_chunk_witness :
  (length (get_masked_chunk star_one 0) < 2)%nat
  ∧ ∃ e, GetChunkData star_one 0 false = Err e.
Proof.
  assert (H : (length (get_masked_chunk star_one 0) < 2)%nat).
  { vm_compute. lia. }
  split; [exact H|].
  exact (GetChunkData_short_chunk Factor get_masked_chunk design GetCovariance
           cho_factor star_one 0 false H).
Defined.

Lemma time_dup_finite : Forall finite time_dup.
Proof. repeat constructor; by eexists. Qed.

Lemma uniform_grid_zero_spacing_witness :
  Forall finite time_dup
  ∧ np_median (np_diff time_dup) = Fin 0
  ∧ uniform_grid time_dup = Err ArangeError.
Proof.
  split; [exact time_dup_finite|]. split; [reflexivity|].
  exact (uniform_grid_zero_spacing time_dup 0 time_dup_finite eq_refl
           (Qeq_refl 0)).
Defined.



Lemma Search_star0 :
  returned (Search star0 disk0 false false pos_tol0 neg_tol0) = Ok result0.
Proof. vm_compute. reflexivity. Qed.

Lemma Search_computed_aligned_witness :
  returned (Search star0 disk0 false false pos_tol0 neg_tol0) = Ok result0
  ∧ aligned result0.
Proof.
  split; [exact Search_star0|].
  exact (Search_computed_aligned Factor get_masked_chunk design GetCovariance
           SavGol transit_model cho_factor cho_solve
           star0 disk0 false false pos_tol0 neg_tol0 result0 eq_refl
           Search_star0).
Defined.

Lemma Search_idempotent_witness :
  returned (Search star0 disk0 false false pos_tol0 neg_tol0) = Ok result0
  ∧ returned (Search (star_after (Search star0 disk0 false false pos_tol0 neg_tol0))
                     (disk_after (Search star0 disk0 false false pos_tol0 neg_tol0))
                     false false pos_tol0 neg_tol0) = Ok result0.
Proof.
  split; [exact Search_star0|].
  unfold Search.
  by rewrite (Search_idempotent Factor get_masked_chunk design GetCovariance
                SavGol transit_model cho_factor cho_solve
                star0 disk0 false false pos_tol0 neg_tol0 result0 Search_star0).
Defined.

Lemma Search_failed_write_witness :
  returned (Search star0 disk_no_space false false pos_tol0 neg_tol0)
  = Err IOError
  ∧ files (disk_after (Search star0 disk_no_space false false pos_tol0 neg_tol0))
    !! cache_name 1 false = Some Corrupt.
Proof.
  destruct (Search_failed_write Factor get_masked_chunk design GetCovariance
              SavGol transit_model cho_factor cho_solve
              star0 disk_no_space false false pos_tol0 neg_tol0 star0' result0
              eq_refl eq_refl eq_refl InstanceFacts.MaskOutliers_star0
              InstanceFacts.compute_star0') as (Hret & _ & Hfile & _).
  split; [exact Hret|exact Hfile].
Defined.



Lemma cache_name_inj_witness :
  cache_name 7 true = cache_name 7 true ∧ 7 = 7 ∧ true = true.
Proof.
  split; [reflexivity|]. exact (cache_name_inj 7 7 true true eq_refl).
Defined.

End MoreFacts.
